(** * The listening front-end and the query mesh of the resolver

    Shallow embedding of [services/listen_dnsport.c] and of the mesh
    interface declared in [services/mesh.h], with the properties of the
    specification stated over the embedded functions.

    The listener is C code that talks to the operating system.  The
    embedding threads an explicit [world] (the descriptor table of the
    process, the log, and the history of operating-system calls) through
    a state monad; the outcome of every call that can fail is read from
    an oracle [os], so that every theorem quantified over [os] holds for
    every behaviour of the operating system. *)

From stdpp Require Import gmap strings list fin_maps sorting.
From Stdlib Require Import ZArith Lia.

Local Open Scope Z_scope.

(** ** The listener: [services/listen_dnsport.c] *)
Module Listen.

(** *** Data *)

Inductive addr_family := AF_UNSPEC | AF_INET | AF_INET6.

(** The socket types; [SOCK_0] is the value 0 that [memset] leaves in
    [ai_socktype]. *)
Inductive sock_type := SOCK_0 | SOCK_DGRAM | SOCK_STREAM.

(** The [errno] values the code tests for, and all the others. *)
Inductive errno :=
  | EAFNOSUPPORT | EPROTONOSUPPORT | EINVAL | EADDRINUSE
  | EOTHER (code : Z).

Inductive sockopt :=
  | IPV6_V6ONLY | IPV6_USE_MIN_MTU | SO_REUSEADDR
  | IPV6_RECVPKTINFO | IPV6_PKTINFO | IP_RECVDSTADDR | IP_PKTINFO.

(** [enum listen_type] of [listen_dnsport.h]. *)
Inductive listen_type :=
  | listen_type_udp | listen_type_tcp | listen_type_udpancil.

(** [struct listen_port]; the [next] pointer is the tail of a Rocq list,
    and [NULL] is the empty list. *)
Record listen_port := { lp_fd : Z; lp_ftype : listen_type }.

Record sockaddr :=
  { sa_family : addr_family; sa_node : string; sa_port : Z }.

(** [struct addrinfo], the fields the listener reads or writes. *)
Record addrinfo := {
  ai_passive : bool;        (* AI_PASSIVE in ai_flags *)
  ai_numerichost : bool;    (* AI_NUMERICHOST in ai_flags *)
  ai_family : addr_family;
  ai_socktype : sock_type;
  ai_addr : option sockaddr
}.

(** The address a result of [getaddrinfo] points to. *)
Definition ai_sockaddr (a : addrinfo) : sockaddr :=
  default {| sa_family := ai_family a; sa_node := EmptyString; sa_port := 0 |}
          (ai_addr a).

Definition set_ai_socktype (t : sock_type) (h : addrinfo) : addrinfo :=
  {| ai_passive := ai_passive h; ai_numerichost := ai_numerichost h;
     ai_family := ai_family h; ai_socktype := t; ai_addr := ai_addr h |}.

Definition set_ai_family (f : addr_family) (h : addrinfo) : addrinfo :=
  {| ai_passive := ai_passive h; ai_numerichost := ai_numerichost h;
     ai_family := f; ai_socktype := ai_socktype h; ai_addr := ai_addr h |}.

(** [struct config_file], the options [listening_ports_open] reads.
    [num_ifs] is the length of [ifs]. *)
Record config_file := {
  port : Z;
  do_ip4 : bool;
  do_ip6 : bool;
  do_udp : bool;
  do_tcp : bool;
  if_automatic : bool;
  incoming_num_tcp : Z;
  ifs : list string
}.

Definition num_ifs (cfg : config_file) : Z := Z.of_nat (length (ifs cfg)).

(** The feature macros of [config.h] that select code in this file.  The
    embedding is of the build without [USE_WINSOCK] and with
    [EADDRINUSE] defined. *)
Record platform := {
  have_INET6 : bool;
  have_IPV6_V6ONLY : bool;
  have_IPV6_USE_MIN_MTU : bool;
  have_SO_REUSEADDR : bool;
  have_IPV6_RECVPKTINFO : bool;
  have_IPV6_PKTINFO : bool;
  have_IP_RECVDSTADDR : bool;
  have_IP_PKTINFO : bool
}.

(** *** The operating system *)

(** The calls whose outcome the listener depends on. *)
Inductive oscall :=
  | Sys_getaddrinfo (node : string) (service : Z) (hints : addrinfo)
  | Sys_socket (family : addr_family) (type : sock_type)
  | Sys_setsockopt (s : Z) (opt : sockopt) (val : Z)
  | Sys_bind (s : Z) (addr : sockaddr)
  | Sys_nonblock (s : Z)
  | Sys_listen (s : Z) (backlog : Z)
  | Sys_malloc.

(** A socket in the descriptor table of the process. *)
Record socket := {
  so_family : addr_family;
  so_type : sock_type;
  so_opts : list (sockopt * Z);
  so_bound : option sockaddr;
  so_nonblock : bool;
  so_backlog : option Z
}.

Inductive log_entry :=
  | Log_err (msg : string)
  | Log_warn (msg : string).

(** The state the listener acts on.  [trace] holds the calls made so far
    with their outcomes, and [logs] the lines written by [log_err] and
    [log_warn], both newest first. *)
Record world := {
  fds : gmap Z socket;
  next_fd : Z;
  trace : list (oscall * option errno);
  logs : list log_entry
}.

Definition set_fds (f : gmap Z socket → gmap Z socket) (w : world) : world :=
  {| fds := f (fds w); next_fd := next_fd w;
     trace := trace w; logs := logs w |}.

Definition io (A : Type) : Type := world → A * world.

Definition ret {A : Type} (a : A) : io A := λ w, (a, w).

Definition bind {A B : Type} (c : io A) (k : A → io B) : io B :=
  λ w, let '(a, w1) := c w in k a w1.

Notation "'let*' x := c 'in' k" := (bind c (λ x, k))
  (at level 10, x pattern, c at level 200, k at level 200).
Notation "c ;; k" := (bind c (λ _, k))
  (at level 100, right associativity).

Definition log_err (msg : string) : io unit := λ w,
  (tt, {| fds := fds w; next_fd := next_fd w; trace := trace w;
          logs := Log_err msg :: logs w |}).

Definition log_warn (msg : string) : io unit := λ w,
  (tt, {| fds := fds w; next_fd := next_fd w; trace := trace w;
          logs := Log_warn msg :: logs w |}).

Section listener.

(** The behaviour of the operating system: the outcome ([None] for
    success, or the [errno] of the failure) of the [n]-th call. *)
Variable os : nat → oscall → option errno.

Variable plat : platform.

(** [str_is_ip6] of [util/net_help.c], which classifies an interface
    literal. *)
Variable str_is_ip6 : string → bool.

Definition os_call (c : oscall) : io (option errno) := λ w,
  let r := os (length (trace w)) c in
  (r, {| fds := fds w; next_fd := next_fd w;
         trace := (c, r) :: trace w; logs := logs w |}).

(** [socket(2)]: on success the new descriptor is entered in the table. *)
Definition sys_socket (family : addr_family) (type : sock_type)
  : io (Z + errno) :=
  let* r := os_call (Sys_socket family type) in
  match r with
  | Some e => ret (inr e)
  | None => λ w : world,
      let s := next_fd w in
      (inl s,
       {| fds := <[s := {| so_family := family; so_type := type;
                           so_opts := []; so_bound := None;
                           so_nonblock := false; so_backlog := None |}]>
                   (fds w);
          next_fd := s + 1; trace := trace w; logs := logs w |})
  end.

Definition sys_setsockopt (s : Z) (opt : sockopt) (val : Z)
  : io (option errno) :=
  let* r := os_call (Sys_setsockopt s opt val) in
  match r with
  | Some e => ret (Some e)
  | None => λ w : world,
      (None, set_fds (alter (λ so,
         {| so_family := so_family so; so_type := so_type so;
            so_opts := (opt, val) :: so_opts so; so_bound := so_bound so;
            so_nonblock := so_nonblock so; so_backlog := so_backlog so |}) s) w)
  end.

Definition sys_bind (s : Z) (addr : sockaddr) : io (option errno) :=
  let* r := os_call (Sys_bind s addr) in
  match r with
  | Some e => ret (Some e)
  | None => λ w : world,
      (None, set_fds (alter (λ so,
         {| so_family := so_family so; so_type := so_type so;
            so_opts := so_opts so; so_bound := Some addr;
            so_nonblock := so_nonblock so; so_backlog := so_backlog so |}) s) w)
  end.

(** [fd_set_nonblock] of [util/net_help.c]: true on success. *)
Definition fd_set_nonblock (s : Z) : io bool :=
  let* r := os_call (Sys_nonblock s) in
  match r with
  | Some _ => ret false
  | None => λ w : world,
      (true, set_fds (alter (λ so,
         {| so_family := so_family so; so_type := so_type so;
            so_opts := so_opts so; so_bound := so_bound so;
            so_nonblock := true; so_backlog := so_backlog so |}) s) w)
  end.

Definition sys_listen (s : Z) (backlog : Z) : io (option errno) :=
  let* r := os_call (Sys_listen s backlog) in
  match r with
  | Some e => ret (Some e)
  | None => λ w : world,
      (None, set_fds (alter (λ so,
         {| so_family := so_family so; so_type := so_type so;
            so_opts := so_opts so; so_bound := so_bound so;
            so_nonblock := so_nonblock so; so_backlog := Some backlog |}) s) w)
  end.

(** [close(2)] removes the descriptor from the table. *)
Definition sys_close (s : Z) : io unit := λ w, (tt, set_fds (delete s) w).

(** [getaddrinfo(3)] with a numeric node: on success one result, of the
    family and socket type asked for in [hints]. *)
Definition getaddrinfo (node : string) (service : Z) (hints : addrinfo)
  : io (option addrinfo) :=
  let* r := os_call (Sys_getaddrinfo node service hints) in
  match r with
  | Some _ => ret None
  | None =>
      ret (Some {| ai_passive := ai_passive hints;
                    ai_numerichost := ai_numerichost hints;
                    ai_family := ai_family hints;
                    ai_socktype := ai_socktype hints;
                    ai_addr := Some {| sa_family := ai_family hints;
                                       sa_node := node;
                                       sa_port := service |} |})
  end.

Definition is_noproto_errno (e : errno) : bool :=
  match e with EAFNOSUPPORT | EPROTONOSUPPORT => true | _ => false end.

Definition is_EINVAL (e : errno) : bool :=
  match e with EINVAL => true | _ => false end.

Definition is_EADDRINUSE (e : errno) : bool :=
  match e with EADDRINUSE => true | _ => false end.

Definition is_AF_INET6 (f : addr_family) : bool :=
  match f with AF_INET6 => true | _ => false end.

Definition is_AF_INET (f : addr_family) : bool :=
  match f with AF_INET => true | _ => false end.

(** number of queued TCP connections for listen() *)
Definition TCP_BACKLOG : Z := 5.

(** *** [create_udp_sock]

    The result is [(s, inuse, noproto)]: the returned descriptor ([-1] on
    failure) and the two output parameters.  Every failing path writes
    both; the successful path writes neither, and [make_sock] does not
    read them then (they are [false] here). *)
Definition create_udp_sock (family : addr_family) (socktype : sock_type)
    (addr : sockaddr) (v6only : Z) : io (Z * bool * bool) :=
  let* r := sys_socket family socktype in
  match r with
  | inr e =>
      if is_noproto_errno e then ret (-1, false, true)
      else log_err "can't create socket" ;; ret (-1, false, false)
  | inl s =>
      let bind_and_nonblock : io (Z * bool * bool) :=
        let* rb := sys_bind s addr in
        match rb with
        | Some e =>
            (if is_AF_INET6 family && is_EINVAL e then ret tt
             else if negb (is_EADDRINUSE e)
                  then log_err "can't bind socket" else ret tt) ;;
            sys_close s ;;
            ret (-1, is_EADDRINUSE e, is_AF_INET6 family && is_EINVAL e)
        | None =>
            let* nb := fd_set_nonblock s in
            if negb nb then sys_close s ;; ret (-1, false, false)
            else ret (s, false, false)
        end in
      let min_mtu : io (Z * bool * bool) :=
        if have_IPV6_USE_MIN_MTU plat then
          let* rm := sys_setsockopt s IPV6_USE_MIN_MTU 1 in
          match rm with
          | Some _ =>
              log_err "setsockopt(..., IPV6_USE_MIN_MTU, ...) failed" ;;
              sys_close s ;; ret (-1, false, false)
          | None => bind_and_nonblock
          end
        else bind_and_nonblock in
      if is_AF_INET6 family then
        if have_IPV6_V6ONLY plat && negb (v6only =? 0) then
          let* rv :=
            sys_setsockopt s IPV6_V6ONLY (if v6only =? 2 then 0 else 1) in
          match rv with
          | Some _ =>
              log_err "setsockopt(..., IPV6_V6ONLY, ...) failed" ;;
              sys_close s ;; ret (-1, false, false)
          | None => min_mtu
          end
        else min_mtu
      else bind_and_nonblock
  end.

(** *** [create_tcp_accept_sock]

    The result is [(s, noproto)].  [addr] is a result of [getaddrinfo],
    whose [ai_addr] is set; [bind] is given that address. *)
Definition create_tcp_accept_sock (addr : addrinfo) (v6only : Z)
  : io (Z * bool) :=
  let* r := sys_socket (ai_family addr) (ai_socktype addr) in
  match r with
  | inr e =>
      if is_noproto_errno e then ret (-1, true)
      else log_err "can't create socket" ;; ret (-1, false)
  | inl s =>
      let bind_and_listen : io (Z * bool) :=
        let* rb := sys_bind s (ai_sockaddr addr) in
        match rb with
        | Some e =>
            if is_AF_INET6 (ai_family addr) && is_EINVAL e
            then ret (-1, true)
            else log_err "can't bind socket" ;; ret (-1, false)
        | None =>
            let* nb := fd_set_nonblock s in
            if negb nb then ret (-1, false)
            else
              let* rl := sys_listen s TCP_BACKLOG in
              match rl with
              | Some _ => log_err "can't listen" ;; ret (-1, false)
              | None => ret (s, false)
              end
        end in
      let v6 : io (Z * bool) :=
        if have_IPV6_V6ONLY plat
           && (is_AF_INET6 (ai_family addr) && negb (v6only =? 0)) then
          let* rv := sys_setsockopt s IPV6_V6ONLY 1 in
          match rv with
          | Some _ =>
              log_err "setsockopt(..., IPV6_V6ONLY, ...) failed" ;;
              ret (-1, false)
          | None => bind_and_listen
          end
        else bind_and_listen in
      if have_SO_REUSEADDR plat then
        let* rr := sys_setsockopt s SO_REUSEADDR 1 in
        match rr with
        | Some _ =>
            log_err "setsockopt(.. SO_REUSEADDR ..) failed" ;;
            ret (-1, false)
        | None => v6
        end
      else v6
  end.

(** *** [make_sock]: create socket from getaddrinfo results

    [hints] is written through the pointer ([ai_socktype]); the result is
    [(s, noip6, hints)] with the structure as the caller sees it after
    the call. *)
Definition make_sock (stype : sock_type) (ifname : string) (port : Z)
    (hints : addrinfo) (v6only : Z) : io (Z * bool * addrinfo) :=
  let hints := set_ai_socktype stype hints in
  let* res := getaddrinfo ifname port hints in
  match res with
  | None => log_err "getaddrinfo" ;; ret (-1, false, hints)
  | Some res =>
      match stype with
      | SOCK_DGRAM =>
          let* (s, inuse, noproto) :=
            create_udp_sock (ai_family res) (ai_socktype res)
              (ai_sockaddr res) v6only in
          if (s =? -1) && inuse then
            log_err "bind: address already in use" ;; ret (s, false, hints)
          else if (s =? -1) && noproto && is_AF_INET6 (ai_family hints)
          then ret (s, true, hints)
          else ret (s, false, hints)
      | _ =>
          let* (s, noproto) := create_tcp_accept_sock res v6only in
          if (s =? -1) && noproto && is_AF_INET6 (ai_family hints)
          then ret (s, true, hints)
          else ret (s, false, hints)
      end
  end.

(** *** [port_insert]: add port to open ports list

    False on failure; the list is unchanged then. *)
Definition port_insert (lst : list listen_port) (s : Z)
    (ftype : listen_type) : io (bool * list listen_port) :=
  let* r := os_call Sys_malloc in
  match r with
  | Some _ => ret (false, lst)
  | None => ret (true, {| lp_fd := s; lp_ftype := ftype |} :: lst)
  end.

(** *** [set_recvpktinfo]: set fd to receive source address packet info *)
Definition set_recvpktinfo (s : Z) (family : addr_family) : io bool :=
  let try (opt : sockopt) (msg : string) : io bool :=
    let* r := sys_setsockopt s opt 1 in
    match r with
    | Some _ => log_err msg ;; ret false
    | None => ret true
    end in
  match family with
  | AF_INET6 =>
      if have_IPV6_RECVPKTINFO plat then
        try IPV6_RECVPKTINFO "setsockopt(..., IPV6_RECVPKTINFO, ...) failed"
      else if have_IPV6_PKTINFO plat then
        try IPV6_PKTINFO "setsockopt(..., IPV6_PKTINFO, ...) failed"
      else
        log_err "no IPV6_RECVPKTINFO and no IPV6_PKTINFO option, please disable interface-automatic in config" ;;
        ret false
  | AF_INET =>
      if have_IP_RECVDSTADDR plat then
        try IP_RECVDSTADDR "setsockopt(..., IP_RECVDSTADDR, ...) failed"
      else if have_IP_PKTINFO plat then
        try IP_PKTINFO "setsockopt(..., IP_PKTINFO, ...) failed"
      else
        log_err "no IP_RECVDSTADDR or IP_PKTINFO option, please disable interface-automatic in config" ;;
        ret false
  | AF_UNSPEC => ret true
  end.

Definition IPv6_not_available : string := "IPv6 protocol not available".

(** *** [ports_create_if]: helper for ports_open, creates one interface

    The result is [(ok, lst, hints)]: the returned truth value and the
    two structures written through pointers. *)
Definition ports_create_if (ifname : string) (do_auto do_udp do_tcp : bool)
    (hints : addrinfo) (port : Z) (lst : list listen_port)
  : io (bool * list listen_port * addrinfo) :=
  let tcp (lst : list listen_port) (hints : addrinfo)
    : io (bool * list listen_port * addrinfo) :=
    if do_tcp then
      let* (s, noip6, hints) := make_sock SOCK_STREAM ifname port hints 1 in
      if s =? -1 then
        if noip6 then ret (true, lst, hints)
        else ret (false, lst, hints)
      else
        let* (ok, lst) := port_insert lst s listen_type_tcp in
        if negb ok then sys_close s ;; ret (false, lst, hints)
        else ret (true, lst, hints)
    else ret (true, lst, hints) in
  if negb do_udp && negb do_tcp then ret (false, lst, hints)
  else if do_auto then
    let* (s, noip6, hints) := make_sock SOCK_DGRAM ifname port hints 1 in
    if s =? -1 then
      if noip6 then log_warn IPv6_not_available ;; ret (true, lst, hints)
      else ret (false, lst, hints)
    else
      (* getting source addr packet info is highly non-portable *)
      let* okp := set_recvpktinfo s (ai_family hints) in
      if negb okp then ret (false, lst, hints)
      else
        let* (ok, lst) := port_insert lst s listen_type_udpancil in
        if negb ok then sys_close s ;; ret (false, lst, hints)
        else tcp lst hints
  else if do_udp then
    (* regular udp socket *)
    let* (s, noip6, hints) := make_sock SOCK_DGRAM ifname port hints 1 in
    if s =? -1 then
      if noip6 then log_warn IPv6_not_available ;; ret (true, lst, hints)
      else ret (false, lst, hints)
    else
      let* (ok, lst) := port_insert lst s listen_type_udp in
      if negb ok then sys_close s ;; ret (false, lst, hints)
      else tcp lst hints
  else tcp lst hints.

(** *** [listening_ports_free] *)
Fixpoint listening_ports_free (lst : list listen_port) : io unit :=
  match lst with
  | [] => ret tt
  | p :: nx =>
      (if negb (lp_fd p =? -1) then sys_close (lp_fd p) else ret tt) ;;
      listening_ports_free nx
  end.

Definition interface_automatic_warning : string :=
  "interface_automatic option does not work when either do-ip4 or do-ip6 is not enabled. Disabling option.".

(** The [for] loop of [listening_ports_open] over the configured
    interfaces, from interface [i] on ([ifs] is what is left of
    [cfg->ifs]).  Its result is what [listening_ports_open] returns:
    [NULL] from inside the loop on a failure, the list after it. *)
Fixpoint ports_open_ifs (ifs : list string) (do_ip4 do_ip6 do_udp do_tcp : bool)
    (hints : addrinfo) (port : Z) (lst : list listen_port)
  : io (list listen_port) :=
  match ifs with
  | [] => ret lst
  | ifname :: rest =>
      if str_is_ip6 ifname then
        if negb do_ip6 then
          ports_open_ifs rest do_ip4 do_ip6 do_udp do_tcp hints port lst
        else
          let hints := set_ai_family AF_INET6 hints in
          let* (ok, lst, hints) :=
            ports_create_if ifname false do_udp do_tcp hints port lst in
          if negb ok then listening_ports_free lst ;; ret []
          else ports_open_ifs rest do_ip4 do_ip6 do_udp do_tcp hints port lst
      else
        if negb do_ip4 then
          ports_open_ifs rest do_ip4 do_ip6 do_udp do_tcp hints port lst
        else
          let hints := set_ai_family AF_INET hints in
          let* (ok, lst, hints) :=
            ports_create_if ifname false do_udp do_tcp hints port lst in
          if negb ok then listening_ports_free lst ;; ret []
          else ports_open_ifs rest do_ip4 do_ip6 do_udp do_tcp hints port lst
  end.

(** *** [listening_ports_open] *)
Definition listening_ports_open (cfg : config_file) : io (list listen_port) :=
  let lst : list listen_port := [] in
  let portbuf := port cfg in
  let do_ip4 := do_ip4 cfg in
  let do_ip6 := do_ip6 cfg in
  let do_tcp := do_tcp cfg in
  let do_auto := if_automatic cfg && do_udp cfg in
  let do_tcp := if incoming_num_tcp cfg =? 0 then false else do_tcp in
  (* getaddrinfo *)
  let hints := {| ai_passive := true;
                  (* no name lookups on our listening ports *)
                  ai_numerichost := 0 <? num_ifs cfg;
                  ai_family := AF_UNSPEC;
                  ai_socktype := SOCK_0; ai_addr := None |} in
  let do_ip6 := if have_INET6 plat then do_ip6 else false in
  if negb do_ip4 && negb do_ip6 then ret []
  else
    let body (do_auto : bool) : io (list listen_port) :=
      (* create ip4 and ip6 ports so that return addresses are nice. *)
      if do_auto || (num_ifs cfg =? 0) then
        let ip4 (lst : list listen_port) (hints : addrinfo)
          : io (list listen_port) :=
          if do_ip4 then
            let hints := set_ai_family AF_INET hints in
            let* (ok, lst, hints) :=
              ports_create_if (if do_auto then "0.0.0.0" else "127.0.0.1")
                do_auto (do_udp cfg) do_tcp hints portbuf lst in
            if negb ok then listening_ports_free lst ;; ret []
            else ret lst
          else ret lst in
        if do_ip6 then
          let hints := set_ai_family AF_INET6 hints in
          let* (ok, lst, hints) :=
            ports_create_if (if do_auto then "::0" else "::1")
              do_auto (do_udp cfg) do_tcp hints portbuf lst in
          if negb ok then listening_ports_free lst ;; ret []
          else ip4 lst hints
        else ip4 lst hints
      else
        ports_open_ifs (ifs cfg) do_ip4 do_ip6 (do_udp cfg) do_tcp
          hints portbuf lst in
    if do_auto && (negb do_ip4 || negb do_ip6) then
      log_warn interface_automatic_warning ;;
      body false
    else body do_auto.

End listener.

(** *** Configurations and environments used in the examples *)

Definition set_if_automatic (b : bool) (cfg : config_file) : config_file :=
  {| port := port cfg; do_ip4 := do_ip4 cfg; do_ip6 := do_ip6 cfg;
     do_udp := do_udp cfg; do_tcp := do_tcp cfg; if_automatic := b;
     incoming_num_tcp := incoming_num_tcp cfg; ifs := ifs cfg |}.

Definition set_ifs (l : list string) (cfg : config_file) : config_file :=
  {| port := port cfg; do_ip4 := do_ip4 cfg; do_ip6 := do_ip6 cfg;
     do_udp := do_udp cfg; do_tcp := do_tcp cfg;
     if_automatic := if_automatic cfg;
     incoming_num_tcp := incoming_num_tcp cfg; ifs := l |}.

(** An operating system on which every call succeeds. *)
Definition os_ok : nat → oscall → option errno := λ _ _, None.

(** A platform with the options of a current Linux. *)
Definition linux : platform :=
  {| have_INET6 := true; have_IPV6_V6ONLY := true;
     have_IPV6_USE_MIN_MTU := false; have_SO_REUSEADDR := true;
     have_IPV6_RECVPKTINFO := true; have_IPV6_PKTINFO := true;
     have_IP_RECVDSTADDR := false; have_IP_PKTINFO := true |}.

(** A classifier of interface literals: those with a colon are IPv6. *)
Fixpoint has_colon (s : string) : bool :=
  match s with
  | EmptyString => false
  | String c r => Ascii.eqb c (Ascii.ascii_of_nat 58) || has_colon r
  end.

(** A process with the three standard descriptors and no socket. *)
Definition world0 : world :=
  {| fds := ∅; next_fd := 3; trace := []; logs := [] |}.

(** port 53, both families, both transports, no interface configured. *)
Definition cfg_default : config_file :=
  {| port := 53; do_ip4 := true; do_ip6 := true; do_udp := true;
     do_tcp := true; if_automatic := false; incoming_num_tcp := 10;
     ifs := [] |}.

Definition cfg_automatic : config_file := set_if_automatic true cfg_default.

(** TCP only, with [interface-automatic] set. *)
Definition cfg_tcp_only : config_file :=
  {| port := 53; do_ip4 := true; do_ip6 := true; do_udp := false;
     do_tcp := true; if_automatic := true; incoming_num_tcp := 10;
     ifs := [] |}.

Definition cfg_ip4_tcp_automatic : config_file :=
  {| port := 53; do_ip4 := true; do_ip6 := false; do_udp := false;
     do_tcp := true; if_automatic := true; incoming_num_tcp := 10;
     ifs := [] |}.

Definition cfg_ip4_automatic : config_file :=
  {| port := 53; do_ip4 := true; do_ip6 := false; do_udp := true;
     do_tcp := true; if_automatic := true; incoming_num_tcp := 10;
     ifs := [] |}.

(** Two configured interfaces, one of each family, with IPv6 disabled. *)
Definition cfg_ifs : config_file :=
  {| port := 53; do_ip4 := true; do_ip6 := false; do_udp := true;
     do_tcp := false; if_automatic := false; incoming_num_tcp := 10;
     ifs := ["2001:db8::1"; "192.0.2.1"] |}.

(** An operating system without [IPV6_RECVPKTINFO]. *)
Definition os_no_pktinfo : nat → oscall → option errno := λ _ c,
  match c with
  | Sys_setsockopt _ IPV6_RECVPKTINFO _ => Some (EOTHER 92)
  | _ => None
  end.

(** The address of the second socket is taken. *)
Definition os_tcp_in_use : nat → oscall → option errno := λ _ c,
  match c with
  | Sys_bind 4 _ => Some EADDRINUSE
  | _ => None
  end.

(** A host without IPv6. *)
Definition os_no_ip6 : nat → oscall → option errno := λ _ c,
  match c with
  | Sys_socket AF_INET6 _ => Some EAFNOSUPPORT
  | _ => None
  end.

(** The hints of [listening_ports_open] before a family is chosen. *)
Definition hints0 : addrinfo :=
  {| ai_passive := true; ai_numerichost := true; ai_family := AF_UNSPEC;
     ai_socktype := SOCK_0; ai_addr := None |}.

(** *** Vocabulary of the specification *)

(** The failures that the code takes for a host without IPv6: [socket]
    refused for the family or the protocol, and [bind] answering
    [EINVAL], both on an IPv6 address. *)
Definition demoted (c : oscall) (e : errno) : bool :=
  match c with
  | Sys_socket f _ => is_AF_INET6 f && is_noproto_errno e
  | Sys_bind _ a => is_AF_INET6 (sa_family a) && is_EINVAL e
  | _ => false
  end.

(** [wp c Q w]: running [c] from [w] gives a result and a world in [Q]. *)
Definition wp {A} (c : io A) (Q : A → world → Prop) (w : world) : Prop :=
  Q (c w).1 (c w).2.

(** Descriptors are handed out in increasing order: every open one is
    below [next_fd]. *)
Definition wf_fds (m : gmap Z socket) (n : Z) : Prop :=
  0 ≤ n ∧ ∀ fd, is_Some (m !! fd) → fd < n.

Definition wf (w : world) : Prop := wf_fds (fds w) (next_fd w).

(** The type of the socket that the newest [socket] call asked for. *)
Fixpoint last_socktype (t : list (oscall * option errno)) : option sock_type :=
  match t with
  | [] => None
  | (Sys_socket _ ty, _) :: _ => Some ty
  | _ :: r => last_socktype r
  end.

Definition is_pktinfo_opt (o : sockopt) : bool :=
  match o with
  | IPV6_RECVPKTINFO | IPV6_PKTINFO | IP_RECVDSTADDR | IP_PKTINFO => true
  | _ => false
  end.

(** The socket reports the destination address of its datagrams. *)
Definition has_pktinfo (so : socket) : bool :=
  existsb (λ o, is_pktinfo_opt o.1) (so_opts so).

Definition is_Log_err (e : log_entry) : Prop :=
  match e with Log_err _ => True | Log_warn _ => False end.

(** The log [new] is [old] with lines in [P] written after it. *)
Definition only_added (P : log_entry → Prop) (old new : list log_entry) : Prop :=
  ∃ add, new = add ++ old ∧ Forall P add.

Definition set_opt (opt : sockopt) (val : Z) (so : socket) : socket :=
  {| so_family := so_family so; so_type := so_type so;
     so_opts := (opt, val) :: so_opts so; so_bound := so_bound so;
     so_nonblock := so_nonblock so; so_backlog := so_backlog so |}.

Definition set_bound (a : sockaddr) (so : socket) : socket :=
  {| so_family := so_family so; so_type := so_type so;
     so_opts := so_opts so; so_bound := Some a;
     so_nonblock := so_nonblock so; so_backlog := so_backlog so |}.

Definition set_nonblock (so : socket) : socket :=
  {| so_family := so_family so; so_type := so_type so;
     so_opts := so_opts so; so_bound := so_bound so;
     so_nonblock := true; so_backlog := so_backlog so |}.

Definition set_backlog (n : Z) (so : socket) : socket :=
  {| so_family := so_family so; so_type := so_type so;
     so_opts := so_opts so; so_bound := so_bound so;
     so_nonblock := so_nonblock so; so_backlog := Some n |}.

Definition new_socket (f : addr_family) (t : sock_type) : socket :=
  {| so_family := f; so_type := t; so_opts := []; so_bound := None;
     so_nonblock := false; so_backlog := None |}.

(** At least one operating-system call was made between [w] and [w']. *)
Definition grew (w w' : world) : Prop := (length (trace w) < length (trace w'))%nat.


(** Every call of [new] that failed is a demoted failure. *)
Definition all_demoted (new : list (oscall * option errno)) : Prop :=
  ∀ c e, (c, Some e) ∈ new → demoted c e = true.

(** What holds of the calls made since the trace [t0] while no call
    has failed for good. *)
Definition called (t0 : list (oscall * option errno)) (w : world) : Prop :=
  wf w ∧ ∃ new, trace w = new ++ t0 ∧ all_demoted new.


(** The sockets that a failed run leaves open: a stream socket that never
    came to listen, and, with [do_auto], a datagram socket without the
    destination-address option. *)
Definition leaked (auto : bool) (so : socket) : Prop :=
  (so_type so = SOCK_STREAM ∧ so_backlog so = None) ∨
  (auto = true ∧ so_type so = SOCK_DGRAM ∧ has_pktinfo so = false).

Definition tag_ok (auto : bool) (t : listen_type) : Prop :=
  match t with
  | listen_type_udp => auto = false
  | listen_type_udpancil => auto = true
  | listen_type_tcp => True
  end.

(** The lines the listener writes while it creates sockets: errors, and
    the warning of a demoted IPv6 failure, which only a datagram socket
    gives. *)
Definition log_ok (udp : bool) (e : log_entry) : Prop :=
  is_Log_err e ∨ (udp = true ∧ e = Log_warn IPv6_not_available).

Definition port_ok (w0 w : world) (auto : bool) (p : listen_port) : Prop :=
  next_fd w0 ≤ lp_fd p < next_fd w ∧ tag_ok auto (lp_ftype p).

Definition fds_ok (w0 w : world) (auto : bool) (lst : list listen_port) : Prop :=
  ∀ fd so, fds w !! fd = Some so →
    fds w0 !! fd = Some so ∨
    (next_fd w0 ≤ fd ∧ (fd ∈ map lp_fd lst ∨ leaked auto so)).

(** What holds of the list under construction while no call has failed
    for good. *)
Definition inv (w0 : world) (auto udp : bool) (lst : list listen_port)
    (w : world) : Prop :=
  wf w ∧ next_fd w0 ≤ next_fd w ∧
  Forall (port_ok w0 w auto) lst ∧
  fds_ok w0 w auto lst ∧
  (length (trace w0) ≤ length (trace w))%nat ∧
  (∀ c e, grew w0 w → head (trace w) = Some (c, Some e) → demoted c e = true) ∧
  only_added (log_ok udp) (logs w0) (logs w).

(** What holds of the list that [listening_ports_open] returns. *)
Definition post (w0 : world) (auto udp : bool) (r : list listen_port)
    (w' : world) : Prop :=
  wf w' ∧
  Forall (port_ok w0 w' auto) r ∧
  fds_ok w0 w' auto r ∧
  (∀ c e, grew w0 w' → head (trace w') = Some (c, Some e) →
     demoted c e = false → r = []) ∧
  only_added (log_ok udp) (logs w0) (logs w').

(** The value of [do_ip6] after the [INET6] conditional. *)
Definition do_ip6_of (plat : platform) (cfg : config_file) : bool :=
  do_ip6 cfg && have_INET6 plat.

(** The value of [do_auto] when the sockets are created. *)
Definition do_auto_of (plat : platform) (cfg : config_file) : bool :=
  if_automatic cfg && do_udp cfg && (do_ip4 cfg && do_ip6_of plat cfg).

(** The world after the warning that disables the option, if it is given. *)
Definition warned (plat : platform) (cfg : config_file) (w : world) : world :=
  if if_automatic cfg && do_udp cfg && negb (do_ip4 cfg && do_ip6_of plat cfg)
     && (do_ip4 cfg || do_ip6_of plat cfg)
  then (log_warn interface_automatic_warning w).2 else w.

(** The value of [do_tcp] that the sockets are created with. *)
Definition tcp_of (cfg : config_file) : bool :=
  if incoming_num_tcp cfg =? 0 then false else do_tcp cfg.

(** The platform can report the destination address for both families. *)
Definition pktinfo_ok (plat : platform) : bool :=
  (have_IPV6_RECVPKTINFO plat || have_IPV6_PKTINFO plat) &&
  (have_IP_RECVDSTADDR plat || have_IP_PKTINFO plat).

(** The sockets of one address, in the order they are created. *)
Definition sockets_for (cfg : config_file) (auto : bool) (fam : addr_family)
    (node : string) : list (listen_type * sock_type * sockaddr) :=
  let a := {| sa_family := fam; sa_node := node; sa_port := port cfg |} in
  (if do_udp cfg
   then [(if auto then listen_type_udpancil else listen_type_udp, SOCK_DGRAM, a)]
   else []) ++
  (if tcp_of cfg then [(listen_type_tcp, SOCK_STREAM, a)] else []).

(** The sockets opened when no interface is listed ([auto = false], the
    loopback addresses) or with [do_auto] (the wildcard addresses). *)
Definition listen_sockets (plat : platform) (cfg : config_file) (auto : bool)
  : list (listen_type * sock_type * sockaddr) :=
  (if do_ip6_of plat cfg
   then sockets_for cfg auto AF_INET6 (if auto then "::0" else "::1")
   else []) ++
  (if do_ip4 cfg
   then sockets_for cfg auto AF_INET (if auto then "0.0.0.0" else "127.0.0.1")
   else []).

Definition port_view (w : world) (p : listen_port)
  : listen_type * option (sock_type * option sockaddr) :=
  (lp_ftype p, (λ so, (so_type so, so_bound so)) <$> fds w !! lp_fd p).

(** The returned list [r], oldest first, is exactly the sockets [l], each
    open in [w] with its type and bound to its address. *)
Definition opened (w : world) (r : list listen_port)
    (l : list (listen_type * sock_type * sockaddr)) : Prop :=
  map (port_view w) (rev r) = map (λ '(t, ty, a), (t, Some (ty, Some a))) l.

(** The family of the interface literal is enabled. *)
Definition family_enabled (plat : platform) (str_is_ip6 : string → bool)
    (cfg : config_file) (ifname : string) : bool :=
  if str_is_ip6 ifname then do_ip6_of plat cfg else do_ip4 cfg.

(** Addresses and a result of [getaddrinfo] for the examples. *)
Definition loopback6 : sockaddr :=
  {| sa_family := AF_INET6; sa_node := "::1"; sa_port := 53 |}.

Definition loopback4 : sockaddr :=
  {| sa_family := AF_INET; sa_node := "127.0.0.1"; sa_port := 53 |}.


(** UDP is off and no TCP connection is allowed. *)
Definition cfg_no_transport : config_file :=
  {| port := 53; do_ip4 := true; do_ip6 := true; do_udp := false;
     do_tcp := true; if_automatic := true; incoming_num_tcp := 0;
     ifs := ["192.0.2.1"] |}.

(** A process with one datagram socket open. *)
Definition world1 : world :=
  {| fds := {[ 3 := new_socket AF_INET SOCK_DGRAM ]}; next_fd := 4;
     trace := []; logs := [] |}.

(** *** Vocabulary of the further properties *)

(** What [create_udp_sock] writes to [*inuse] when the call [c] has
    failed with [e]. *)
Definition udp_inuse (c : oscall) (e : errno) : bool :=
  match c with
  | Sys_bind _ _ => is_EADDRINUSE e
  | _ => false
  end.

(** What [create_udp_sock] and [create_tcp_accept_sock] write to
    [*noproto] when the call [c] has failed with [e]. *)
Definition udp_noproto (family : addr_family) (c : oscall) (e : errno) : bool :=
  match c with
  | Sys_socket _ _ => is_noproto_errno e
  | Sys_bind _ _ => is_AF_INET6 family && is_EINVAL e
  | _ => false
  end.

(** The socket that [make_sock] returns for the type [stype] and the
    address of [ifname] and [port] in the family [fam], when it is called
    with [v6only = 1]. *)
Definition socket_ok (plat : platform) (stype : sock_type) (fam : addr_family)
    (ifname : string) (port : Z) (so : socket) : Prop :=
  so_type so = stype ∧ so_family so = fam ∧
  so_bound so = Some {| sa_family := fam; sa_node := ifname; sa_port := port |} ∧
  so_nonblock so = true ∧ has_pktinfo so = false ∧
  so_backlog so = match stype with
                  | SOCK_DGRAM => None
                  | _ => Some TCP_BACKLOG
                  end ∧
  (fam = AF_INET6 → have_IPV6_V6ONLY plat = true →
   (IPV6_V6ONLY, 1) ∈ so_opts so) ∧
  (stype ≠ SOCK_DGRAM → have_SO_REUSEADDR plat = true →
   (SO_REUSEADDR, 1) ∈ so_opts so).

(** The type of the datagram port of [ports_create_if]. *)
Definition udp_tag (do_auto : bool) : listen_type :=
  if do_auto then listen_type_udpancil else listen_type_udp.

(** The socket of a port of the list: non-blocking, bound to the port
    number, of the type of the port, listening if it is a stream socket,
    reporting destination addresses if the port is [udpancil], and
    IPv6-only where that option exists. *)
Definition port_socket_ok (plat : platform) (portnum : Z) (p : listen_port)
    (so : socket) : Prop :=
  so_nonblock so = true ∧
  so_family so ≠ AF_UNSPEC ∧
  (∃ a, so_bound so = Some a ∧ sa_family a = so_family so ∧
        sa_port a = portnum) ∧
  so_type so = match lp_ftype p with
               | listen_type_tcp => SOCK_STREAM
               | _ => SOCK_DGRAM
               end ∧
  so_backlog so = match lp_ftype p with
                  | listen_type_tcp => Some TCP_BACKLOG
                  | _ => None
                  end ∧
  has_pktinfo so = match lp_ftype p with
                   | listen_type_udpancil => true
                   | _ => false
                   end ∧
  (so_family so = AF_INET6 → have_IPV6_V6ONLY plat = true →
   (IPV6_V6ONLY, 1) ∈ so_opts so).

(** Why a socket can be open without being in the list. *)
Definition stray (os : nat → oscall → option errno) (plat : platform)
    (auto : bool) : Prop :=
  (∃ n c e, os n c = Some e) ∨ (auto = true ∧ pktinfo_ok plat = false).

(** The descriptors that were open in [w0] are as they were. *)
Definition frame (w0 w : world) : Prop :=
  ∀ fd, fd < next_fd w0 → fds w !! fd = fds w0 !! fd.

(** The ports of [lst] are distinct sockets opened since [w0]. *)
Definition ports_ok (plat : platform) (portnum : Z) (w0 w : world)
    (lst : list listen_port) : Prop :=
  NoDup (map lp_fd lst) ∧
  Forall (λ p, next_fd w0 ≤ lp_fd p < next_fd w ∧
               ∃ so, fds w !! lp_fd p = Some so ∧
                     port_socket_ok plat portnum p so) lst.

(** Every socket opened since [w0] is in the list, unless a call failed
    or destination addresses cannot be asked for. *)
Definition no_stray (os : nat → oscall → option errno) (plat : platform)
    (auto : bool) (w0 w : world) (lst : list listen_port) : Prop :=
  ∀ fd so, fds w !! fd = Some so → next_fd w0 ≤ fd →
    fd ∈ map lp_fd lst ∨ stray os plat auto.

(** What holds of the list and the descriptors while
    [listening_ports_open] runs, and when it returns. *)
Definition inv3 (os : nat → oscall → option errno) (plat : platform)
    (portnum : Z) (auto : bool) (w0 : world) (lst : list listen_port)
    (w : world) : Prop :=
  wf w ∧ next_fd w0 ≤ next_fd w ∧ frame w0 w ∧
  ports_ok plat portnum w0 w lst ∧ no_stray os plat auto w0 w lst.

End Listen.

Module Commpoint.

(** Modelled from the spec: [util/netevent.h] is absent.  The kinds of
    communication point: the datagram and the accepting points that
    [listen_create] makes, the points of established TCP connections,
    and any other kind. *)
Inductive comm_point_type :=
  | comm_udp | comm_tcp_accept | comm_tcp | comm_other (kind : nat).

(** Modelled from the spec: [struct comm_point] of [util/netevent.h],
    with the fields the listener touches and whether the point is
    registered with the event loop. *)
Record comm_point := {
  cp_type : comm_point_type;
  cp_fd : Z;
  cp_do_not_close : bool;
  cp_listening : bool
}.

(** Modelled from the spec: [comm_point_stop_listening] of
    [util/netevent.c]; a paused point delivers no event. *)
Definition comm_point_stop_listening (c : comm_point) : comm_point :=
  {| cp_type := cp_type c; cp_fd := cp_fd c;
     cp_do_not_close := cp_do_not_close c; cp_listening := false |}.

(** Modelled from the spec: [comm_point_start_listening] of
    [util/netevent.c], as the listener calls it, with no new descriptor
    and no timeout ([newfd = -1], [sec = -1]). *)
Definition comm_point_start_listening (c : comm_point) (newfd sec : Z)
  : comm_point :=
  {| cp_type := cp_type c; cp_fd := if newfd =? -1 then cp_fd c else newfd;
     cp_do_not_close := cp_do_not_close c; cp_listening := true |}.

(** [struct listen_dnsport]: [cps] is the list of [struct listen_list],
    each item the address of its comm point.  The comm points live in a
    store indexed by address. *)
Record listen_dnsport := { cps : list nat }.

Definition is_comm_udp (t : comm_point_type) : bool :=
  match t with comm_udp => true | _ => false end.

Definition is_comm_tcp_accept (t : comm_point_type) : bool :=
  match t with comm_tcp_accept => true | _ => false end.

(** The loop of [listen_pushback] from item [p] on. *)
Fixpoint listen_pushback_from (p : list nat) (store : gmap nat comm_point)
  : gmap nat comm_point :=
  match p with
  | [] => store
  | com :: next =>
      match store !! com with
      | Some c =>
          if negb (is_comm_udp (cp_type c))
             && negb (is_comm_tcp_accept (cp_type c))
          then listen_pushback_from next store
          else listen_pushback_from next
                 (<[com := comm_point_stop_listening c]> store)
      | None => listen_pushback_from next store
      end
  end.

Definition listen_pushback (listen : listen_dnsport)
    (store : gmap nat comm_point) : gmap nat comm_point :=
  listen_pushback_from (cps listen) store.

(** The loop of [listen_resume] from item [p] on. *)
Fixpoint listen_resume_from (p : list nat) (store : gmap nat comm_point)
  : gmap nat comm_point :=
  match p with
  | [] => store
  | com :: next =>
      match store !! com with
      | Some c =>
          if negb (is_comm_udp (cp_type c))
             && negb (is_comm_tcp_accept (cp_type c))
          then listen_resume_from next store
          else listen_resume_from next
                 (<[com := comm_point_start_listening c (-1) (-1)]> store)
      | None => listen_resume_from next store
      end
  end.

Definition listen_resume (listen : listen_dnsport)
    (store : gmap nat comm_point) : gmap nat comm_point :=
  listen_resume_from (cps listen) store.

(** The points that pause and resume act on: those of the listener whose
    type is [comm_udp] or [comm_tcp_accept]. *)
Definition paused_by (listen : listen_dnsport) (a : nat) (c : comm_point)
  : bool :=
  bool_decide (a ∈ cps listen) &&
  (is_comm_udp (cp_type c) || is_comm_tcp_accept (cp_type c)).

End Commpoint.

(** ** The listener front: [listen_create] and [listen_delete] of
    [services/listen_dnsport.c] *)
Module ListenCreate.

Import Listen Commpoint.
Local Open Scope nat_scope.

(** What an address of the heap holds.  The fields of the listener
    structures are kept in the values of type [listen_dnsport] below; the
    heap tells which structures are allocated, and holds the comm
    points. *)
Inductive obj :=
  | Obj_listen_dnsport
  | Obj_buffer (capacity : Z)
  | Obj_listen_list
  | Obj_comm_point (c : comm_point).

(** [struct listen_list]: the address of the item and of its comm
    point; [next] is the tail of a Rocq list. *)
Record listen_list := { item : nat; com : nat }.

(** [struct listen_dnsport]: its address, the list of comm points
    and the address of the UDP buffer. *)
Record listen_dnsport := {
  front_addr : nat;
  cps : list listen_list;
  udp_buff : nat
}.

(** The memory of the process: [allocs] counts the allocations asked
    for, [hlogs] holds the lines written by [log_err], newest first. *)
Record memory := {
  heap : gmap nat obj;
  next_addr : nat;
  allocs : nat;
  hlogs : list string
}.

Definition set_heap (f : gmap nat obj → gmap nat obj) (w : memory) : memory :=
  {| heap := f (heap w); next_addr := next_addr w; allocs := allocs w;
     hlogs := hlogs w |}.

Definition mem_log_err (msg : string) (w : memory) : memory :=
  {| heap := heap w; next_addr := next_addr w; allocs := allocs w;
     hlogs := msg :: hlogs w |}.

Section front.

(** Whether the [n]-th allocation succeeds. *)
Variable alloc_ok : nat → bool.

(** The comm points that [comm_point_create_udp], [comm_point_create_tcp]
    and [comm_point_create_udp_ancil] of [util/netevent.c] make for a
    descriptor, when they succeed; [tcp] is given [tcp_accept_count] and
    [bufsize]. *)
Variable comm_point_create_udp : Z → comm_point.
Variable comm_point_create_tcp : Z → Z → Z → comm_point.
Variable comm_point_create_udp_ancil : Z → comm_point.

(** [malloc] and the functions that allocate: the address of the new
    object, or [None] for [NULL]. *)
Definition alloc (o : obj) (w : memory) : option nat * memory :=
  if alloc_ok (allocs w) then
    (Some (next_addr w),
     {| heap := <[next_addr w := o]> (heap w); next_addr := S (next_addr w);
        allocs := S (allocs w); hlogs := hlogs w |})
  else
    (None,
     {| heap := heap w; next_addr := next_addr w; allocs := S (allocs w);
        hlogs := hlogs w |}).

(** [free], and [comm_point_delete] and [ldns_buffer_free], which
    release their object. *)
Definition free (a : nat) (w : memory) : memory := set_heap (delete a) w.

(** The field [do_not_close] of the comm point at [a] is set to 1. *)
Definition set_do_not_close (c : comm_point) : comm_point :=
  {| cp_type := cp_type c; cp_fd := cp_fd c; cp_do_not_close := true;
     cp_listening := cp_listening c |}.

Definition update_comm_point (f : comm_point → comm_point) (a : nat)
    (w : memory) : memory :=
  set_heap (alter (λ o, match o with
                        | Obj_comm_point c => Obj_comm_point (f c)
                        | _ => o
                        end) a) w.

(** [listen_cp_insert]: add items to commpoint list in front; false on
    failure. *)
Definition listen_cp_insert (c : nat) (front : listen_dnsport) (w : memory)
  : bool * listen_dnsport * memory :=
  match alloc Obj_listen_list w with
  | (None, w) => (false, front, w)
  | (Some it, w) =>
      (true,
       {| front_addr := front_addr front;
          cps := {| item := it; com := c |} :: cps front;
          udp_buff := udp_buff front |}, w)
  end.

(** [listen_list_delete] *)
Fixpoint listen_list_delete (list : list listen_list) (w : memory) : memory :=
  match list with
  | [] => w
  | p :: pn => listen_list_delete pn (free (item p) (free (com p) w))
  end.

(** [listen_delete]; [None] is the [NULL] pointer. *)
Definition listen_delete (front : option listen_dnsport) (w : memory)
  : memory :=
  match front with
  | None => w
  | Some front =>
      free (front_addr front)
        (free (udp_buff front) (listen_list_delete (cps front) w))
  end.

(** The comm point that [listen_create] asks for, for a port. *)
Definition create_for (bufsize tcp_accept_count : Z) (p : listen_port)
  : comm_point :=
  match lp_ftype p with
  | listen_type_udp => comm_point_create_udp (lp_fd p)
  | listen_type_tcp =>
      comm_point_create_tcp (lp_fd p) tcp_accept_count bufsize
  | listen_type_udpancil => comm_point_create_udp_ancil (lp_fd p)
  end.

(** The [while] loop of [listen_create] over the ports that are left,
    with what follows it. *)
Fixpoint listen_create_ports (ports : list listen_port)
    (bufsize tcp_accept_count : Z) (front : listen_dnsport) (w : memory)
  : option listen_dnsport * memory :=
  match ports with
  | [] =>
      match cps front with
      | [] =>
          (None,
           listen_delete (Some front)
             (mem_log_err "Could not open sockets to accept queries." w))
      | _ => (Some front, w)
      end
  | p :: next =>
      match alloc (Obj_comm_point (create_for bufsize tcp_accept_count p)) w
      with
      | (None, w) =>
          (None,
           listen_delete (Some front) (mem_log_err "can't create commpoint" w))
      | (Some cp, w) =>
          let w := update_comm_point set_do_not_close cp w in
          match listen_cp_insert cp front w with
          | (false, front, w) =>
              (None,
               listen_delete (Some front)
                 (free cp (mem_log_err "malloc failed" w)))
          | (true, front, w) =>
              listen_create_ports next bufsize tcp_accept_count front w
          end
      end
  end.

(** [listen_create]; the event base and the callback are not
    modelled. *)
Definition listen_create (ports : list listen_port)
    (bufsize tcp_accept_count : Z) (w : memory)
  : option listen_dnsport * memory :=
  match alloc Obj_listen_dnsport w with
  | (None, w) => (None, w)
  | (Some front, w) =>
      match alloc (Obj_buffer bufsize) w with
      | (None, w) => (None, free front w)
      | (Some buff, w) =>
          listen_create_ports ports bufsize tcp_accept_count
            {| front_addr := front; cps := []; udp_buff := buff |} w
      end
  end.

(** What the heap holds for an item of the list of a listener and the
    port it was made for. *)
Definition holds (bufsize count : Z) (h : gmap nat obj) (it : listen_list)
    (p : listen_port) : Prop :=
  h !! com it =
    Some (Obj_comm_point (set_do_not_close (create_for bufsize count p))) ∧
  h !! item it = Some Obj_listen_list.

End front.

(** The heap after [listen_delete] of a listener. *)
Definition delete_front (front : listen_dnsport) (h : gmap nat obj)
  : gmap nat obj :=
  delete (front_addr front)
    (delete (udp_buff front)
       (foldl (λ h p, delete (item p) (delete (com p) h)) h (cps front))).

(** Every allocated address is below [next_addr]. *)
Definition heap_wf (w : memory) : Prop :=
  ∀ a, is_Some (heap w !! a) → a < next_addr w.

Definition memory0 : memory :=
  {| heap := ∅; next_addr := 1; allocs := 0; hlogs := [] |}.

Definition always : nat → bool := λ _, true.

(** The third allocation, of the first comm point, fails. *)
Definition third_fails : nat → bool := λ n, negb (n =? 2).

Definition new_udp (fd : Z) : comm_point :=
  {| cp_type := comm_udp; cp_fd := fd; cp_do_not_close := false;
     cp_listening := true |}.

Definition new_tcp (fd count bufsize : Z) : comm_point :=
  {| cp_type := comm_tcp_accept; cp_fd := fd; cp_do_not_close := false;
     cp_listening := true |}.

Definition two_ports : list listen_port :=
  [ {| lp_fd := 4; lp_ftype := listen_type_tcp |};
    {| lp_fd := 3; lp_ftype := listen_type_udp |} ].

End ListenCreate.

(** ** The query mesh: [services/mesh.h]

    The header declares the data of the mesh and documents its
    functions; their bodies, in [services/mesh.c], are not part of the
    sources.  The structures below follow the header.  The functions are
    modelled from the specification and from the documentation of their
    declarations. *)
Module Mesh.

Local Open Scope nat_scope.

(** *** Data *)

(** The key of a mesh state: [qname], [qtype], [qclass], the RD and CD
    flags, and whether it is a priming query. *)
Record query_key := {
  qname : string;
  qtype : N;
  qclass : N;
  rd_flag : bool;
  cd_flag : bool;
  is_priming : bool
}.

#[global] Instance query_key_eq_dec : EqDecision query_key.
Proof. solve_decision. Defined.

#[global] Instance query_key_countable : Countable query_key.
Proof.
  refine (inj_countable'
    (λ k, (qname k, qtype k, qclass k, rd_flag k, cd_flag k, is_priming k))
    (λ '(a, b, c, d, e, f), Build_query_key a b c d e f) _).
  by intros [].
Defined.

(** Modelled from the spec: [enum module_ev] of [util/module.h], which is
    absent; the events that the mesh delivers to a module. *)
Inductive module_ev :=
  | module_event_new
  | module_event_pass
  | module_event_reply
  | module_event_capsfail
  | module_event_moddone.

#[global] Instance module_ev_eq_dec : EqDecision module_ev.
Proof. solve_decision. Defined.

(** Modelled from the spec: [enum module_ext_state] of [util/module.h],
    which is absent; what [operate] returns: WAIT, NEXT, RESTART,
    FINISHED and ERROR. *)
Inductive module_ext_state :=
  | module_wait
  | module_next
  | module_restart
  | module_finished
  | module_error.

(** [struct mesh_reply]: the destination, the EDNS data, the arrival
    time, and the id and flags of the client query. *)
Record mesh_reply := {
  query_reply : nat;
  edns : N;
  start_time : N;
  qid : N;
  qflags : N
}.

(** Modelled from the spec: the comparison function of the trees of the
    mesh, of [services/mesh.c]; iteration is by comparison of query
    keys.  The model compares the codes of the keys, a total order. *)
Definition mesh_state_compare (a b : query_key) : comparison :=
  Pos.compare (encode a) (encode b).

(** [rbtree_t] of [util/rbtree.h], which is absent, as the list of the
    keys of its nodes in iteration order. *)
Abbreviation rbtree := (list query_key).

(** Modelled from the spec: [rbtree_insert] of [util/rbtree.c]; a key
    that is present is not inserted again. *)
Fixpoint rbtree_insert (k : query_key) (t : rbtree) : rbtree :=
  match t with
  | [] => [k]
  | x :: r =>
      match mesh_state_compare k x with
      | Lt => k :: t
      | Eq => t
      | Gt => x :: rbtree_insert k r
      end
  end.

(** Modelled from the spec: [rbtree_delete] of [util/rbtree.c]. *)
Definition rbtree_delete (k : query_key) (t : rbtree) : rbtree :=
  filter (λ x, x ≠ k) t.

(** Modelled from the spec: [rbtree_search] of [util/rbtree.c]. *)
Definition rbtree_search (t : rbtree) (k : query_key) : bool :=
  bool_decide (k ∈ t).

Definition is_nil {A} (l : list A) : bool :=
  match l with [] => true | _ => false end.

(** [struct mesh_state].  The key of the state is its key in [all];
    [curmod] is the module position kept in the query state [s].
    Modelled from the spec: [pending_event], the event that the
    scheduler of section 4.3.6 next operates the state with; the type
    of the query state [s], of [util/module.h], is absent. *)
Record mesh_state := {
  curmod : nat;
  pending_event : module_ev;
  reply_list : list mesh_reply;
  debug_flags : Z;
  super_set : rbtree;
  sub_set : rbtree
}.

Definition set_curmod (n : nat) (s : mesh_state) : mesh_state :=
  {| curmod := n; pending_event := pending_event s;
     reply_list := reply_list s; debug_flags := debug_flags s;
     super_set := super_set s; sub_set := sub_set s |}.

Definition set_pending_event (e : module_ev) (s : mesh_state) : mesh_state :=
  {| curmod := curmod s; pending_event := e;
     reply_list := reply_list s; debug_flags := debug_flags s;
     super_set := super_set s; sub_set := sub_set s |}.

Definition set_reply_list (l : list mesh_reply) (s : mesh_state) : mesh_state :=
  {| curmod := curmod s; pending_event := pending_event s;
     reply_list := l; debug_flags := debug_flags s;
     super_set := super_set s; sub_set := sub_set s |}.

Definition set_super_set (t : rbtree) (s : mesh_state) : mesh_state :=
  {| curmod := curmod s; pending_event := pending_event s;
     reply_list := reply_list s;
     debug_flags := debug_flags s; super_set := t; sub_set := sub_set s |}.

Definition set_sub_set (t : rbtree) (s : mesh_state) : mesh_state :=
  {| curmod := curmod s; pending_event := pending_event s;
     reply_list := reply_list s;
     debug_flags := debug_flags s; super_set := super_set s; sub_set := t |}.

(** [struct mesh_area]: the runnable states, all states, and the
    counters.  The module callbacks are a parameter of the functions
    that run modules; the waiting times are not modelled. *)
Record mesh_area := {
  num_modules : nat;
  run : rbtree;
  all : gmap query_key mesh_state;
  num_reply_addrs : nat;
  num_reply_states : nat;
  num_detached_states : nat;
  replies_sent : nat
}.

Definition set_run (t : rbtree) (mesh : mesh_area) : mesh_area :=
  {| num_modules := num_modules mesh; run := t; all := all mesh;
     num_reply_addrs := num_reply_addrs mesh;
     num_reply_states := num_reply_states mesh;
     num_detached_states := num_detached_states mesh;
     replies_sent := replies_sent mesh |}.

Definition set_all (a : gmap query_key mesh_state) (mesh : mesh_area)
  : mesh_area :=
  {| num_modules := num_modules mesh; run := run mesh; all := a;
     num_reply_addrs := num_reply_addrs mesh;
     num_reply_states := num_reply_states mesh;
     num_detached_states := num_detached_states mesh;
     replies_sent := replies_sent mesh |}.

Definition set_num_detached_states (n : nat) (mesh : mesh_area) : mesh_area :=
  {| num_modules := num_modules mesh; run := run mesh; all := all mesh;
     num_reply_addrs := num_reply_addrs mesh;
     num_reply_states := num_reply_states mesh;
     num_detached_states := n;
     replies_sent := replies_sent mesh |}.

(** A state is detached when it has no reply and no super-state. *)
Definition is_detached (s : mesh_state) : bool :=
  is_nil (reply_list s) && is_nil (super_set s).

Definition has_replies (s : mesh_state) : bool := negb (is_nil (reply_list s)).

Definition bool_to_nat (b : bool) : nat := if b then 1 else 0.

(** The state at key [k] is replaced by [f] of it. *)
Definition state_update (f : mesh_state → mesh_state) (k : query_key)
    (a : gmap query_key mesh_state) : gmap query_key mesh_state :=
  match a !! k with
  | Some s => <[k := f s]> a
  | None => a
  end.

Definition subs_of (a : gmap query_key mesh_state) (k : query_key) : rbtree :=
  match a !! k with
  | Some s => sub_set s
  | None => []
  end.

(** *** Functions *)

(** Modelled from the spec: [mesh_create] of [services/mesh.c]: the
    mesh is allocated empty. *)
Definition mesh_create (n : nat) : mesh_area :=
  {| num_modules := n; run := []; all := ∅;
     num_reply_addrs := 0; num_reply_states := 0;
     num_detached_states := 0; replies_sent := 0 |}.

(** Modelled from the spec: [mesh_area_find] of [services/mesh.c]. *)
Definition mesh_area_find (mesh : mesh_area) (k : query_key)
  : option mesh_state :=
  all mesh !! k.

(** Modelled from the spec: [mesh_state_create] of [services/mesh.c]:
    a new state, not yet in the trees; the event of its first turn is
    [module_event_new]. *)
Definition mesh_state_create : mesh_state :=
  {| curmod := 0; pending_event := module_event_new;
     reply_list := []; debug_flags := 0%Z;
     super_set := []; sub_set := [] |}.

(** Modelled from the spec: [mesh_state_add_reply] of
    [services/mesh.c]; replies are kept in insertion order.  It does not
    update the counters. *)
Definition mesh_state_add_reply (s : mesh_state) (rep : mesh_reply)
  : mesh_state :=
  set_reply_list (reply_list s ++ [rep]) s.

(** Modelled from the spec: [mesh_state_attachment] of
    [services/mesh.c]: the mutual edges between [super] and [sub].  It
    does not update the counters. *)
Definition mesh_state_attachment (super sub : query_key) (mesh : mesh_area)
  : mesh_area :=
  set_all
    (state_update (λ s, set_sub_set (rbtree_insert sub (sub_set s)) s) super
       (state_update (λ s, set_super_set (rbtree_insert super (super_set s)) s)
          sub (all mesh)))
    mesh.

(** Modelled from the spec: the search of [mesh_detect_cycle], of
    [services/mesh.c], section 4.3.8: depth first from [k] along the
    sub-set edges, with the set of the keys visited; [fuel] bounds the
    depth. *)
Fixpoint find_in_subsub (fuel : nat) (a : gmap query_key mesh_state)
    (tofind k : query_key) (visited : gset query_key)
  : bool * gset query_key :=
  match fuel with
  | O => (false, visited)
  | S fuel =>
      if decide (k = tofind) then (true, visited)
      else if decide (k ∈ visited) then (false, visited)
      else
        foldl (λ (acc : bool * gset query_key) sub,
                 if acc.1 then acc
                 else find_in_subsub fuel a tofind sub acc.2)
              (false, {[k]} ∪ visited) (subs_of a k)
  end.

(** Modelled from the spec: [mesh_detect_cycle] of [services/mesh.c]:
    true iff [from] is reachable from [k]; the search is bounded by the
    size of [all]. *)
Definition mesh_detect_cycle (mesh : mesh_area) (from k : query_key) : bool :=
  (find_in_subsub (S (size (all mesh))) (all mesh) from k ∅).1.

(** Modelled from the spec: [mesh_attach_sub] of [services/mesh.c],
    section 4.3.2.  The result is the mesh, whether the call succeeded,
    and [newq].  [alloc] tells whether memory can be allocated; a sub
    state that exists and is attached already needs none.  A new state
    is made runnable, as the header says of [newq]. *)
Definition mesh_attach_sub (mesh : mesh_area) (super k : query_key)
    (alloc : bool) : mesh_area * bool * option query_key :=
  if mesh_detect_cycle mesh super k then (mesh, false, None)
  else
    let found := mesh_area_find mesh k in
    let attached := rbtree_search (subs_of (all mesh) super) k in
    if negb alloc && negb (bool_decide (is_Some found) && attached)
    then (mesh, false, None)
    else
      let '(mesh1, newq) :=
        match found with
        | Some _ => (mesh, None)
        | None =>
            (set_num_detached_states (num_detached_states mesh + 1)
               (set_run (rbtree_insert k (run mesh))
                  (set_all (<[k := mesh_state_create]> (all mesh)) mesh)),
             Some k)
        end in
      if attached then (mesh1, true, newq)
      else
        let was_detached :=
          match all mesh1 !! k with
          | Some s => is_detached s
          | None => false
          end in
        (set_num_detached_states
           (num_detached_states mesh1 - bool_to_nat was_detached)
           (mesh_state_attachment super k mesh1),
         true, newq).

(** Modelled from the spec: one step of the loop of [mesh_detach_subs],
    of [services/mesh.c], section 4.3.3: the edge from [k] to [sub] is
    removed from the super-set of [sub]; if that set becomes empty and
    [sub] has no reply, [sub] is now detached. *)
Definition detach_one (k : query_key) (mesh : mesh_area) (sub : query_key)
  : mesh_area :=
  match all mesh !! sub with
  | None => mesh
  | Some ss =>
      let sup := rbtree_delete k (super_set ss) in
      set_num_detached_states
        (num_detached_states mesh +
         bool_to_nat (negb (is_nil (super_set ss)) && is_nil sup
                      && is_nil (reply_list ss)))
        (set_all (<[sub := set_super_set sup ss]> (all mesh)) mesh)
  end.

(** Modelled from the spec: [mesh_detach_subs] of [services/mesh.c],
    section 4.3.3. *)
Definition mesh_detach_subs (mesh : mesh_area) (k : query_key) : mesh_area :=
  match all mesh !! k with
  | None => mesh
  | Some s =>
      let mesh1 := foldl (detach_one k) mesh (sub_set s) in
      set_all (state_update (set_sub_set []) k (all mesh1)) mesh1
  end.

(** Modelled from the spec: [mesh_query_done] of [services/mesh.c],
    section 4.3.4: a reply is sent to every entry of the reply list, the
    list is drained and the counters are updated.  With no reply entry
    nothing is done. *)
Definition mesh_query_done (mesh : mesh_area) (k : query_key) : mesh_area :=
  match all mesh !! k with
  | None => mesh
  | Some s =>
      let n := length (reply_list s) in
      {| num_modules := num_modules mesh; run := run mesh;
         all := <[k := set_reply_list [] s]> (all mesh);
         num_reply_addrs := num_reply_addrs mesh - n;
         num_reply_states := num_reply_states mesh - bool_to_nat (has_replies s);
         num_detached_states :=
           num_detached_states mesh +
           bool_to_nat (has_replies s && is_nil (super_set s));
         replies_sent := replies_sent mesh + n |}
  end.

(** Modelled from the spec: [mesh_walk_supers] of [services/mesh.c],
    section 4.3.5: the super-states that the callback is called with, in
    the iteration order of the super-set.  The callback changes the
    private data of the modules only. *)
Definition mesh_walk_supers (mesh : mesh_area) (k : query_key)
  : list query_key :=
  match all mesh !! k with
  | Some s => super_set s
  | None => []
  end.

(** Modelled from the spec: the fan-out of section 4.3.6: for each
    super-state of [k], in the iteration order of the super-set, its
    pending event becomes [module_event_moddone] and it is inserted into
    [run]. *)
Definition mesh_supers_runnable (mesh : mesh_area) (k : query_key)
  : mesh_area :=
  foldl (λ m sup,
           set_run (rbtree_insert sup (run m))
             (set_all (state_update (set_pending_event module_event_moddone)
                         sup (all m)) m))
        mesh (mesh_walk_supers mesh k).

(** Modelled from the spec: [mesh_state_delete] of [services/mesh.c]:
    the state is detached from all its sub-states and super-states and
    removed from the trees. *)
Definition mesh_state_delete (mesh : mesh_area) (k : query_key) : mesh_area :=
  let mesh1 := mesh_detach_subs mesh k in
  match all mesh1 !! k with
  | None => mesh1
  | Some s =>
      let a :=
        foldl (λ a sup,
                 state_update
                   (λ ss, set_sub_set (rbtree_delete k (sub_set ss)) ss) sup a)
              (all mesh1) (super_set s) in
      {| num_modules := num_modules mesh1;
         run := rbtree_delete k (run mesh1);
         all := delete k a;
         num_reply_addrs := num_reply_addrs mesh1 - length (reply_list s);
         num_reply_states :=
           num_reply_states mesh1 - bool_to_nat (has_replies s);
         num_detached_states :=
           num_detached_states mesh1 - bool_to_nat (is_detached s);
         replies_sent := replies_sent mesh1 |}
  end.

(** Modelled from the spec: the functions of the mesh that a module,
    whose code is absent, calls while it operates on a state. *)
Inductive mesh_call :=
  | Call_attach_sub (k : query_key) (alloc : bool)
  | Call_detach_subs
  | Call_query_done
  | Call_walk_supers.

Definition mesh_do_call (cur : query_key) (mesh : mesh_area) (c : mesh_call)
  : mesh_area :=
  match c with
  | Call_attach_sub k alloc => (mesh_attach_sub mesh cur k alloc).1.1
  | Call_detach_subs => mesh_detach_subs mesh cur
  | Call_query_done => mesh_query_done mesh cur
  | Call_walk_supers => mesh
  end.

(** Modelled from the spec: the action of the scheduler on the state
    that a module returned, section 4.3.6. *)
Definition mesh_continue (mesh : mesh_area) (k : query_key)
    (s : module_ext_state) : mesh_area :=
  match s with
  | module_next =>
      set_run (rbtree_insert k (run mesh))
        (set_all (state_update (λ st, set_curmod (curmod st + 1) st) k
                    (all mesh)) mesh)
  | module_restart =>
      set_run (rbtree_insert k (run mesh))
        (set_all (state_update (λ st, set_curmod (curmod st - 1) st) k
                    (all mesh)) mesh)
  | module_wait => mesh
  | module_finished | module_error =>
      mesh_state_delete (mesh_supers_runnable (mesh_query_done mesh k) k) k
  end.

(** The event that the state [k] is next operated with. *)
Definition pending (mesh : mesh_area) (k : query_key) : option module_ev :=
  pending_event <$> all mesh !! k.

Section scheduler.

(** The [operate] callbacks of the modules: from the number of calls made
    so far, the mesh, the state, its module position and the event, the
    calls into the mesh and the state returned. *)
Variable operate :
  nat → mesh_area → query_key → nat → module_ev →
  list mesh_call * module_ext_state.

(** Modelled from the spec: one turn of the loop of section 4.3.6, for
    the state [mstate] and the event [ev]: the module operates, the
    pending event of the state becomes [module_event_pass], and the
    scheduler acts on the state that the module returned.  The second
    result is the call of [operate], if the state is in the mesh. *)
Definition mesh_run_state (tick : nat) (mesh : mesh_area)
    (mstate : query_key) (ev : module_ev)
  : mesh_area * list (query_key * module_ev) :=
  match all mesh !! mstate with
  | None => (mesh, [])
  | Some st =>
      let '(calls, s) := operate tick mesh mstate (curmod st) ev in
      let mesh1 := foldl (mesh_do_call mstate) mesh calls in
      let mesh2 :=
        set_all (state_update (set_pending_event module_event_pass) mstate
                   (all mesh1)) mesh1 in
      (mesh_continue mesh2 mstate s, [(mstate, ev)])
  end.

(** Modelled from the spec: the loop of section 4.3.6: while [run] is
    not empty, its lowest state is removed from it and operated with its
    pending event.  [fuel] bounds the number of turns; the second result
    lists the calls of [operate], oldest first. *)
Fixpoint mesh_run_queue (fuel : nat) (tick : nat) (mesh : mesh_area)
  : mesh_area * list (query_key * module_ev) :=
  match fuel, run mesh with
  | S fuel, next :: rest =>
      let ev := default module_event_pass (pending mesh next) in
      let '(mesh1, called) :=
        mesh_run_state tick (set_run rest mesh) next ev in
      let '(mesh2, tr) := mesh_run_queue fuel (S tick) mesh1 in
      (mesh2, called ++ tr)
  | _, _ => (mesh, [])
  end.

(** Modelled from the spec: [mesh_run] of [services/mesh.c]: the state
    [mstate] is operated with the event [ev], which are the parameters
    that the header declares, and then the loop of section 4.3.6 runs
    the runnable states. *)
Definition mesh_run (fuel : nat) (tick : nat) (mesh : mesh_area)
    (mstate : query_key) (ev : module_ev)
  : mesh_area * list (query_key * module_ev) :=
  let '(mesh1, called) := mesh_run_state tick mesh mstate ev in
  let '(mesh2, tr) := mesh_run_queue fuel (S tick) mesh1 in
  (mesh2, called ++ tr).

(** Modelled from the spec: [mesh_new_client] of [services/mesh.c],
    section 4.3.1.  When memory cannot be allocated the client is
    answered directly and the mesh is left as it was. *)
Definition mesh_new_client (fuel : nat) (mesh : mesh_area) (k : query_key)
    (rep : mesh_reply) (alloc : bool)
  : mesh_area * list (query_key * module_ev) :=
  if negb alloc then (mesh, [])
  else
    match mesh_area_find mesh k with
    | Some s =>
        ({| num_modules := num_modules mesh; run := run mesh;
            all := <[k := mesh_state_add_reply s rep]> (all mesh);
            num_reply_addrs := num_reply_addrs mesh + 1;
            num_reply_states :=
              num_reply_states mesh + bool_to_nat (is_nil (reply_list s));
            num_detached_states :=
              num_detached_states mesh - bool_to_nat (is_detached s);
            replies_sent := replies_sent mesh |}, [])
    | None =>
        mesh_run fuel 0
          {| num_modules := num_modules mesh; run := run mesh;
             all := <[k := mesh_state_add_reply mesh_state_create rep]>
                      (all mesh);
             num_reply_addrs := num_reply_addrs mesh + 1;
             num_reply_states := num_reply_states mesh + 1;
             num_detached_states := num_detached_states mesh;
             replies_sent := replies_sent mesh |}
          k module_event_new
    end.

(** Modelled from the spec: [mesh_report_reply] of [services/mesh.c],
    section 4.3.7: the state of the outbound entry runs with event
    [module_event_reply]. *)
Definition mesh_report_reply (fuel : nat) (mesh : mesh_area) (k : query_key)
  : mesh_area * list (query_key * module_ev) :=
  mesh_run fuel 0 mesh k module_event_reply.

(** The operations on a mesh: those of the worker and those of the
    module environment. *)
Inductive mesh_op :=
  | Op_new_client (fuel : nat) (k : query_key) (rep : mesh_reply)
      (alloc : bool)
  | Op_report_reply (fuel : nat) (k : query_key)
  | Op_attach_sub (super k : query_key) (alloc : bool)
  | Op_detach_subs (k : query_key)
  | Op_query_done (k : query_key)
  | Op_state_delete (k : query_key).

Definition mesh_apply (mesh : mesh_area) (op : mesh_op) : mesh_area :=
  match op with
  | Op_new_client fuel k rep alloc => (mesh_new_client fuel mesh k rep alloc).1
  | Op_report_reply fuel k => (mesh_report_reply fuel mesh k).1
  | Op_attach_sub super k alloc => (mesh_attach_sub mesh super k alloc).1.1
  | Op_detach_subs k => mesh_detach_subs mesh k
  | Op_query_done k => mesh_query_done mesh k
  | Op_state_delete k => mesh_state_delete mesh k
  end.

End scheduler.

(** *** Vocabulary of the specification *)


(** The number of states of [a] that satisfy [P]. *)
Definition count_states (P : mesh_state → bool)
    (a : gmap query_key mesh_state) : nat :=
  size (filter (λ kv, P kv.2 = true) a).

(** The sum of [f] over the states of [a]. *)
Definition msum (f : mesh_state → nat) (a : gmap query_key mesh_state) : nat :=
  map_fold (λ _ s n, f s + n) 0 a.

(** Every counter has the value that its description in [struct
    mesh_area] gives it. *)
Definition counters_ok (mesh : mesh_area) : Prop :=
  num_reply_addrs mesh = msum (λ s, length (reply_list s)) (all mesh) ∧
  num_reply_states mesh = msum (λ s, bool_to_nat (has_replies s)) (all mesh) ∧
  num_detached_states mesh = msum (λ s, bool_to_nat (is_detached s)) (all mesh).



(** *** The states of the examples *)

Definition key_of (name : string) : query_key :=
  {| qname := name; qtype := 1%N; qclass := 1%N; rd_flag := true;
     cd_flag := false; is_priming := false |}.

Definition client (n : nat) : mesh_reply :=
  {| query_reply := n; edns := 4096%N; start_time := 0%N;
     qid := N.of_nat n; qflags := 256%N |}.

(** A module for the fan-out scenario: the states [s1.test.] and
    [s2.test.] attach the sub-state [u.test.] when they are new, and
    finish when they are operated again; [u.test.] waits for its reply
    and finishes when it has come. *)
Definition fanout_operate (tick : nat) (mesh : mesh_area) (k : query_key)
    (curmod : nat) (ev : module_ev) : list mesh_call * module_ext_state :=
  if decide (k = key_of "u.test.") then
    match ev with
    | module_event_reply => ([Call_walk_supers], module_finished)
    | _ => ([], module_wait)
    end
  else
    match ev with
    | module_event_new => ([Call_attach_sub (key_of "u.test.") true], module_wait)
    | _ => ([], module_finished)
    end.

(** The mesh after the clients 1 and 2 have asked for [s1.test.] and
    [s2.test.]. *)
Definition fanout_mesh : mesh_area :=
  (mesh_new_client fanout_operate 8
     (mesh_new_client fanout_operate 8 (mesh_create 1)
        (key_of "s1.test.") (client 1) true).1
     (key_of "s2.test.") (client 2) true).1.

End Mesh.

(** * Properties of the listener *)

Import Listen.

(** ** Rules of the weakest precondition *)

Lemma wp_bind {A B} (c : io A) (k : A → io B) Q w :
  wp c (λ a w1, wp (k a) Q w1) w → wp (bind c k) Q w.
Proof. unfold wp, bind. by destruct (c w). Qed.

Lemma wp_ret {A} (a : A) (Q : A → world → Prop) w : Q a w → wp (ret a) Q w.
Proof. done. Qed.

Lemma wp_mono {A} (c : io A) (Q Q' : A → world → Prop) w :
  wp c Q w → (∀ a w', Q a w' → Q' a w') → wp c Q' w.
Proof. unfold wp. auto. Qed.

Lemma wp_eq {A} (c : io A) (Q : A → world → Prop) w a w' :
  c w = (a, w') → Q a w' → wp c Q w.
Proof. unfold wp. by intros ->. Qed.

Lemma wp_conj {A} (c : io A) (Q1 Q2 : A → world → Prop) w :
  wp c Q1 w → wp c Q2 w → wp c (λ a w', Q1 a w' ∧ Q2 a w') w.
Proof. unfold wp. auto. Qed.

(** ** Logs and descriptor tables *)

Lemma only_added_refl P l : only_added P l l.
Proof. by exists []. Qed.

Lemma only_added_cons P l l' x : P x → only_added P l l' → only_added P l (x :: l').
Proof. intros ? (add & -> & ?). exists (x :: add). split; [done|by constructor]. Qed.

Lemma only_added_weaken (P Q : log_entry → Prop) l1 l2 :
  (∀ e, P e → Q e) → only_added P l1 l2 → only_added Q l1 l2.
Proof. intros HPQ (a & -> & H). exists a. split; [done|]. by eapply Forall_impl. Qed.

Lemma only_added_trans P l1 l2 l3 : only_added P l1 l2 → only_added P l2 l3 → only_added P l1 l3.
Proof.
  intros (a & -> & ?) (b & -> & ?). exists (b ++ a). split; [by rewrite app_assoc|].
  by apply Forall_app.
Qed.

Lemma wf_insert m n so : wf_fds m n → wf_fds (<[n := so]> m) (n + 1).
Proof.
  intros [? H]. split; [lia|]. intros fd.
  rewrite lookup_insert_is_Some. intros [->|[_ ?%H]]; lia.
Qed.

Lemma wf_next m n n' : wf_fds m n → n ≤ n' → wf_fds m n'.
Proof. intros [? H] ?. split; [lia|]. intros fd ?%H. lia. Qed.

Lemma wf_fresh m n : wf_fds m n → m !! n = None.
Proof.
  intros [_ H]. destruct (m !! n) eqn:E; [|done].
  specialize (H n). rewrite E in H. specialize (H (mk_is_Some _ _ eq_refl)). lia.
Qed.

Lemma log_ok_err udp e : is_Log_err e → log_ok udp e.
Proof. by left. Qed.

(** ** The operating-system calls *)

Section prim_rules.
Variable os : nat → oscall → option errno.

Lemma wp_os_call c (Q : option errno → world → Prop) m n t l :
  (∀ r, os (length t) c = r → Q r (Build_world m n ((c, r) :: t) l)) →
  wp (os_call os c) Q (Build_world m n t l).
Proof. unfold wp, os_call. simpl. auto. Qed.

Lemma wp_socket f ty (Q : Z + errno → world → Prop) m n t l :
  (∀ r, os (length t) (Sys_socket f ty) = r →
     match r with
     | Some e => Q (inr e) (Build_world m n ((Sys_socket f ty, r) :: t) l)
     | None => Q (inl n) (Build_world (<[n := new_socket f ty]> m) (n + 1)
                            ((Sys_socket f ty, r) :: t) l)
     end) →
  wp (sys_socket os f ty) Q (Build_world m n t l).
Proof.
  intros H. specialize (H _ eq_refl). unfold wp, sys_socket, bind, os_call. simpl.
  by destruct (os _ _).
Qed.

Lemma wp_setsockopt s opt val (Q : option errno → world → Prop) so m n t l :
  (∀ r, os (length t) (Sys_setsockopt s opt val) = r →
     Q r (Build_world (<[s := if r is None then set_opt opt val so else so]> m) n
            ((Sys_setsockopt s opt val, r) :: t) l)) →
  wp (sys_setsockopt os s opt val) Q (Build_world (<[s := so]> m) n t l).
Proof.
  intros H. specialize (H _ eq_refl). unfold wp, sys_setsockopt, bind, os_call, set_fds. simpl.
  destruct (os _ _); simpl; [done|]. by rewrite alter_insert_eq.
Qed.

Lemma wp_bind_call s a (Q : option errno → world → Prop) so m n t l :
  (∀ r, os (length t) (Sys_bind s a) = r →
     Q r (Build_world (<[s := if r is None then set_bound a so else so]> m) n
            ((Sys_bind s a, r) :: t) l)) →
  wp (sys_bind os s a) Q (Build_world (<[s := so]> m) n t l).
Proof.
  intros H. specialize (H _ eq_refl). unfold wp, sys_bind, bind, os_call, set_fds. simpl.
  destruct (os _ _); simpl; [done|]. by rewrite alter_insert_eq.
Qed.

Lemma wp_nonblock s (Q : bool → world → Prop) so m n t l :
  (∀ r, os (length t) (Sys_nonblock s) = r →
     Q (if r is None then true else false)
       (Build_world (<[s := if r is None then set_nonblock so else so]> m) n
            ((Sys_nonblock s, r) :: t) l)) →
  wp (fd_set_nonblock os s) Q (Build_world (<[s := so]> m) n t l).
Proof.
  intros H. specialize (H _ eq_refl). unfold wp, fd_set_nonblock, bind, os_call, set_fds. simpl.
  destruct (os _ _); simpl; [done|]. by rewrite alter_insert_eq.
Qed.

Lemma wp_listen s b (Q : option errno → world → Prop) so m n t l :
  (∀ r, os (length t) (Sys_listen s b) = r →
     Q r (Build_world (<[s := if r is None then set_backlog b so else so]> m) n
            ((Sys_listen s b, r) :: t) l)) →
  wp (sys_listen os s b) Q (Build_world (<[s := so]> m) n t l).
Proof.
  intros H. specialize (H _ eq_refl). unfold wp, sys_listen, bind, os_call, set_fds. simpl.
  destruct (os _ _); simpl; [done|]. by rewrite alter_insert_eq.
Qed.

Lemma wp_close_fresh s (Q : unit → world → Prop) so m n t l :
  m !! s = None →
  Q tt (Build_world m n t l) →
  wp (sys_close s) Q (Build_world (<[s := so]> m) n t l).
Proof.
  intros Hs H. unfold wp, sys_close, set_fds. simpl.
  by rewrite delete_insert_eq, delete_id.
Qed.

Lemma wp_log_err msg (Q : unit → world → Prop) m n t l :
  Q tt (Build_world m n t (Log_err msg :: l)) → wp (log_err msg) Q (Build_world m n t l).
Proof. done. Qed.

Lemma wp_log_warn msg (Q : unit → world → Prop) m n t l :
  Q tt (Build_world m n t (Log_warn msg :: l)) → wp (log_warn msg) Q (Build_world m n t l).
Proof. done. Qed.

End prim_rules.

Ltac solve_wf_n k :=
  lazymatch k with
  | O => fail
  | S ?k' =>
      first [ eassumption
            | eapply wf_insert; solve_wf_n k'
            | eapply wf_next; [solve_wf_n k'|simpl; lia] ]
  end.

Ltac solve_wf := unfold wf in *; cbn [fds next_fd] in *; solve_wf_n 4%nat.

Ltac wp_simpl := cbn beta iota delta [fds next_fd trace logs set_fds fst snd].

Ltac wp_prim :=
  lazymatch goal with
  | |- wp (bind _ _) _ _ => apply wp_bind
  | |- wp (ret _) _ _ => apply wp_ret
  | |- wp (os_call _ _) _ _ => apply wp_os_call; intros [?|] ?
  | |- wp (sys_socket _ _ _) _ _ => apply wp_socket; intros [?|] ?
  | |- wp (sys_setsockopt _ _ _ _) _ _ => apply wp_setsockopt; intros [?|] ?
  | |- wp (sys_bind _ _ _) _ _ => apply wp_bind_call; intros [?|] ?
  | |- wp (fd_set_nonblock _ _) _ _ => apply wp_nonblock; intros [?|] ?
  | |- wp (sys_listen _ _ _) _ _ => apply wp_listen; intros [?|] ?
  | |- wp (sys_close _) _ _ =>
      apply wp_close_fresh;
      [first [assumption | eapply wf_fresh; solve_wf]|]
  | |- wp (log_err _) _ _ => apply wp_log_err
  | |- wp (log_warn _) _ _ => apply wp_log_warn
  | |- wp (if ?b then _ else _) _ _ =>
      let E := fresh "E" in destruct b eqn:E; simpl in E; try discriminate E
  | |- wp (match ?x with _ => _ end) _ _ =>
      let E := fresh "E" in destruct x eqn:E; simpl in E; try discriminate E
  | |- wp _ _ _ => progress cbv zeta
  end; wp_simpl.

Ltac errno_cases :=
  repeat match goal with
  | e : errno |- _ => destruct e
  end; simpl in *; congruence.

Ltac logs_added := simpl; repeat (apply only_added_cons; [exact I|]); apply only_added_refl.

Ltac leaf Hwf :=
  repeat match goal with
  | |- _ ∧ _ => split
  | |- wf _ => solve_wf
  | |- grew _ _ => unfold grew; simpl; lia
  | |- only_added _ _ _ => logs_added
  | |- _ → _ => intros ?
  | H : ?x ≠ ?x |- _ => destruct (H eq_refl)
  | H : _ = -1 |- _ => exfalso; unfold wf, wf_fds in *; simpl in *; lia
  | |- ∃ c, head _ = Some (c, None) => eexists; reflexivity
  | |- ∃ so, <[_ := _]> _ = <[_ := so]> _ ∧ _ => eexists; split; [reflexivity|]; simpl
  | |- ∃ c e, head _ = Some (c, Some e) ∧ _ => eexists _, _; split; [reflexivity|]; simpl
  | |- _ = _ => first [assumption | reflexivity | lia | solve [errno_cases]]
  | |- _ ∨ _ =>
      first [ left; split; [reflexivity|simpl; lia]
            | right; split; [simpl; lia|];
              eexists; split; [reflexivity|]; simpl; split; reflexivity
            | right; split; [congruence|]; split; [simpl; lia|];
              eexists; split; [reflexivity|]; simpl; split; reflexivity ]
  | |- _ ≤ _ => simpl; lia
  | |- _ ≠ _ => congruence
  end.


Section make_sock_facts.
Variable os : nat → oscall → option errno.
Variable plat : platform.

Lemma make_sock_spec stype ifname port hints v6only w :
  wf w →
  wp (make_sock os plat stype ifname port hints v6only) (λ '(s, noip6, h') w',
      h' = set_ai_socktype stype hints ∧
      wf w' ∧ grew w w' ∧ only_added is_Log_err (logs w) (logs w') ∧
      (s ≠ -1 →
         s = next_fd w ∧ next_fd w' = s + 1 ∧ noip6 = false ∧ logs w' = logs w ∧
         (∃ c, head (trace w') = Some (c, None)) ∧
         ∃ so, fds w' = <[s := so]> (fds w) ∧
               so_type so = stype ∧ so_family so = ai_family hints ∧
               so_bound so = Some {| sa_family := ai_family hints;
                                     sa_node := ifname; sa_port := port |} ∧
               so_nonblock so = true ∧ has_pktinfo so = false ∧
               so_backlog so = match stype with
                               | SOCK_DGRAM => None
                               | _ => Some TCP_BACKLOG
                               end) ∧
      (s = -1 →
         (∃ c e, head (trace w') = Some (c, Some e) ∧
                 os (length (tail (trace w'))) c = Some e ∧
                 noip6 = demoted c e ∧
                 (demoted c e = true →
                    logs w' = logs w ∧ last_socktype (trace w') = Some stype)) ∧
         ((fds w' = fds w ∧ next_fd w ≤ next_fd w') ∨
          (stype ≠ SOCK_DGRAM ∧ next_fd w' = next_fd w + 1 ∧
           ∃ so, fds w' = <[next_fd w := so]> (fds w) ∧
                 so_type so = stype ∧ so_backlog so = None)))) w.
Proof.
  intros Hwf. destruct w as [m n t l]. pose proof (wf_fresh _ _ Hwf) as Hfresh.
  unfold make_sock, getaddrinfo, create_udp_sock, create_tcp_accept_sock.
  destruct hints as [pa nh fam ty0 ad]; simpl.
  destruct fam, stype.
  all: repeat wp_prim.
  all: timeout 20 (leaf Hwf).
Qed.

End make_sock_facts.

Ltac after_make_sock :=
  let s := fresh "s" in let noip6 := fresh "noip6" in
  let Hwf1 := fresh "Hwf" in let Hg := fresh "Hg" in let Hl := fresh "Hl" in
  let Hsucc := fresh "Hsucc" in let Hfail := fresh "Hfail" in
  let E := fresh "E" in
  apply wp_bind; eapply wp_mono; [apply make_sock_spec; solve_wf|];
  intros [[s noip6] ?] [? ? ? ?] (-> & Hwf1 & Hg & Hl & Hsucc & Hfail);
  wp_simpl;
  destruct (s =? -1) eqn:E;
  [ apply Z.eqb_eq in E; clear Hsucc;
    destruct (Hfail E) as [(? & ? & ? & ? & ? & ?) [[? ?]|(? & ? & ? & ? & ? & ?)]];
    clear Hfail; simpl in *; subst; try congruence
  | apply Z.eqb_neq in E;
    destruct (Hsucc E) as (? & ? & ? & ? & [? ?] & ? & ? & ? & ? & ? & ? & ? & ?);
    clear Hfail Hsucc; simpl in *; subst ].

Ltac wp_pci :=
  lazymatch goal with
  | |- wp (bind (make_sock _ _ _ _ _ _ _) _) _ _ => after_make_sock
  | |- _ => wp_prim
  end.


(** The lines the listener writes while it creates sockets: errors, and
    the warning of a demoted IPv6 failure, which only a datagram socket
    gives. *)
Ltac solve_logs :=
  repeat match goal with
  | H : only_added is_Log_err _ _ |- only_added (log_ok ?u) _ _ =>
      apply (only_added_weaken _ (log_ok u) _ _ (log_ok_err u)) in H
  end;
  simpl;
  repeat first
    [ apply only_added_refl
    | eassumption
    | apply only_added_cons; [first [left; exact I | right; done]|]
    | eapply only_added_trans; [eassumption|] ].

Ltac use_facts :=
  repeat match goal with
  | H : true = true → _ |- _ => specialize (H eq_refl); destruct H as [? ?]
  | H : false = true → _ |- _ => clear H
  | H : ?x ≠ ?x |- _ => destruct (H eq_refl)
  end; subst.

Ltac head_eq Hh :=
  simpl in Hh;
  try match goal with
      | H : head ?t = _ |- _ =>
          tryif constr_eq H Hh then fail else rewrite H in Hh
      end;
  simplify_eq.

Ltac pick_added :=
  lazymatch goal with
  | |- ∃ added, ?l = added ++ ?l ∧ _ => exists []
  | |- ∃ added, ?a :: ?l = added ++ ?l ∧ _ => exists [a]
  | |- ∃ added, ?a :: ?b :: ?l = added ++ ?l ∧ _ => exists [a; b]
  end; split; [reflexivity|].

Ltac lookup_cases Hl :=
  repeat (apply lookup_insert_Some in Hl; destruct Hl as [[<- <-]|[? Hl]]).


Section listener_facts.
Variable os : nat → oscall → option errno.
Variable plat : platform.
Variable str_is_ip6 : string → bool.

Lemma ports_create_if_trace ifname do_auto do_udp do_tcp hints port lst w :
  wf w →
  wp (ports_create_if os plat ifname do_auto do_udp do_tcp hints port lst)
    (λ '(ok, lst', h') w',
      wf w' ∧ next_fd w ≤ next_fd w' ∧
      (ok = true → grew w w' ∧
         ∀ c e, head (trace w') = Some (c, Some e) → demoted c e = true) ∧
      (∀ c e, grew w w' → head (trace w') = Some (c, Some e) →
         if demoted c e
         then ok = true ∧
              logs w' = (if last_socktype (trace w') is Some SOCK_DGRAM
                         then [Log_warn IPv6_not_available] else []) ++ logs w
         else ok = false) ∧
      only_added (log_ok (do_auto || do_udp)) (logs w) (logs w')) w.
Proof.
  intros Hwf. destruct w as [m n t l].
  unfold ports_create_if, set_recvpktinfo, port_insert.
  destruct hints as [pa nh fam ty0 ad]; simpl.
  destruct fam, do_auto, do_udp, do_tcp; simpl.
  all: repeat wp_pci.
  all: use_facts.
  all: (split; [solve_wf|]).
  all: (split; [simpl; lia|]).
  all: (split; [|split]; [| |solve_logs]).
  all: try (intros Hok;
       first [ discriminate Hok
             | split; [unfold grew in *; simpl in *; lia|];
               intros ? ? Hh; head_eq Hh; done ]).
  all: try (intros ? ? Hgr Hh; head_eq Hh; simpl;
       repeat match goal with H : demoted _ _ = _ |- _ => rewrite H end;
       simpl; repeat match goal with H : last_socktype _ = _ |- _ => rewrite H end; done).
  all: intros ? ? Hgr; unfold grew in Hgr; simpl in Hgr; lia.
Qed.

Lemma ports_create_if_fds ifname do_auto do_udp do_tcp hints port lst w :
  wf w →
  wp (ports_create_if os plat ifname do_auto do_udp do_tcp hints port lst)
    (λ '(ok, lst', h') w',
      ∃ added, lst' = added ++ lst ∧
        Forall (λ p, next_fd w ≤ lp_fd p < next_fd w' ∧
                     tag_ok do_auto (lp_ftype p)) added ∧
        ∀ fd so, fds w' !! fd = Some so →
          fds w !! fd = Some so ∨
          (next_fd w ≤ fd ∧ (fd ∈ map lp_fd added ∨ leaked do_auto so))) w.
Proof.
  intros Hwf. destruct w as [m n t l].
  unfold ports_create_if, set_recvpktinfo, port_insert.
  destruct hints as [pa nh fam ty0 ad]; simpl.
  destruct fam, do_auto, do_udp, do_tcp; simpl.
  all: repeat wp_pci.
  all: pick_added.
  all: (split; [repeat constructor; simpl; lia|]).
  all: intros fd so Hlk; simpl in Hlk; lookup_cases Hlk.
  all: try (left; assumption).
  all: try (right; split; [lia|]; left; simpl;
                 solve [repeat first [apply list_elem_of_here
                                     |apply list_elem_of_further]]).
  all: try (right; split; [lia|]; right; unfold leaked; simpl; solve [auto]).
Qed.


Lemma inv_post w0 auto udp lst w : inv w0 auto udp lst w → post w0 auto udp lst w.
Proof.
  intros (? & ? & ? & ? & ? & Hh & ?).
  split; [done|]. split; [done|]. split; [done|]. split; [|done].
  intros c e Hg Hhd Hd. rewrite (Hh c e Hg Hhd) in Hd. done.
Qed.

Lemma listening_ports_free_spec lst w :
  Forall (λ p, lp_fd p ≠ -1) lst →
  wp (listening_ports_free lst) (λ _ w',
    next_fd w' = next_fd w ∧ trace w' = trace w ∧ logs w' = logs w ∧
    ∀ fd so, fds w' !! fd = Some so →
      fds w !! fd = Some so ∧ fd ∉ map lp_fd lst) w.
Proof.
  revert w. induction lst as [|p lst IH]; intros w Hl.
  - apply wp_ret. repeat split; try done. simpl. apply not_elem_of_nil.
  - apply Forall_cons in Hl as [Hp Hl]. simpl.
    apply wp_bind. apply Z.eqb_neq in Hp. rewrite Hp. simpl.
    eapply wp_eq; [reflexivity|]. eapply wp_mono; [apply IH, Hl|].
    intros _ w' (-> & -> & -> & Hf).
    split; [done|]. split; [done|]. split; [done|].
    intros fd so H. apply Hf in H as [H Hni]. simpl in H.
    apply lookup_delete_Some in H as [Hne H]. split; [done|].
    simpl. by intros [->|Hin]%elem_of_cons.
Qed.

Lemma fail_post w0 auto udp lst w :
  0 ≤ next_fd w0 →
  wf w → next_fd w0 ≤ next_fd w →
  Forall (port_ok w0 w auto) lst → fds_ok w0 w auto lst →
  only_added (log_ok udp) (logs w0) (logs w) →
  wp (listening_ports_free lst ;; ret []) (post w0 auto udp) w.
Proof.
  intros H0 Hwf Hn Hl Hf Hlog. apply wp_bind.
  eapply wp_mono; [apply listening_ports_free_spec|].
  { eapply Forall_impl; [exact Hl|]. intros p [? _]. lia. }
  intros _ w' (Hn' & Ht' & Hl' & Hfd). apply wp_ret.
  split; [|split; [|split; [|split]]].
  - destruct Hwf as [? Hlt]. split; [lia|]. rewrite Hn'.
    intros fd [so Hso]. apply Hfd in Hso as [Hso _]. apply Hlt. by exists so.
  - constructor.
  - intros fd so Hso. apply Hfd in Hso as [Hso Hni].
    destruct (Hf fd so Hso) as [?|[? [?|?]]]; [by left|done|right; by auto].
  - done.
  - by rewrite Hl'.
Qed.

Lemma ports_create_if_inv w0 auto u ifname do_udp do_tcp hints port lst w :
  u = auto || do_udp →
  0 ≤ next_fd w0 →
  inv w0 auto u lst w →
  wp (ports_create_if os plat ifname auto do_udp do_tcp hints port lst)
    (λ '(ok, lst', h') w',
       if ok then inv w0 auto u lst' w'
       else wp (listening_ports_free lst' ;; ret []) (post w0 auto u) w') w.
Proof.
  intros -> H0 (Hwf & Hn & Hl & Hf & Hlen & Hhd & Hlog).
  eapply wp_mono.
  { apply wp_conj; [apply ports_create_if_trace|apply ports_create_if_fds]; done. }
  intros [[ok lst'] h'] w' [(Hwf' & Hn' & Hok & Hcall & Hlog') (added & -> & Hadd & Hfd)].
  assert (Forall (port_ok w0 w' auto) (added ++ lst)) as Hports.
  { apply Forall_app. split.
    - eapply Forall_impl; [exact Hadd|]. intros p [? ?]. split; [lia|done].
    - eapply Forall_impl; [exact Hl|]. intros p [? ?]. split; [lia|done]. }
  assert (fds_ok w0 w' auto (added ++ lst)) as Hfds.
  { intros fd so Hso. rewrite map_app, elem_of_app.
    destruct (Hfd fd so Hso) as [Hold|[? [?|?]]].
    - destruct (Hf fd so Hold) as [?|[? [?|?]]]; [by left|right..]; auto.
    - right. split; [lia|auto].
    - right. split; [lia|auto]. }
  assert (only_added (log_ok (auto || do_udp)) (logs w0) (logs w')) as Hlogs.
  { by eapply only_added_trans. }
  destruct ok.
  - destruct (Hok eq_refl) as [Hg Hd].
    split; [done|]. split; [lia|]. split; [done|]. split; [done|].
    split; [unfold grew in Hg; lia|]. split; [|done].
    intros c e _ Hc. by apply Hd.
  - apply fail_post; try done. lia.
Qed.

Lemma inv_init w auto udp : wf w → inv w auto udp [] w.
Proof.
  intros Hwf. split; [done|]. split; [lia|]. split; [constructor|].
  split; [by left|]. split; [lia|]. split; [|apply only_added_refl].
  unfold grew. lia.
Qed.

Lemma ports_open_ifs_post w0 ifs i4 i6 udp tcp hints port lst w :
  0 ≤ next_fd w0 →
  inv w0 false udp lst w →
  wp (ports_open_ifs os plat str_is_ip6 ifs i4 i6 udp tcp hints port lst)
     (post w0 false udp) w.
Proof.
  intros H0. revert hints lst w.
  induction ifs as [|ifname rest IH]; intros hints lst w Hinv; simpl.
  { apply wp_ret. by apply inv_post. }
  destruct (str_is_ip6 ifname).
  - destruct i6; simpl; [|by apply IH].
    apply wp_bind. eapply wp_mono; [by apply ports_create_if_inv|].
    intros [[[] lst'] h'] w' H; simpl; [by apply IH|done].
  - destruct i4; simpl; [|by apply IH].
    apply wp_bind. eapply wp_mono; [by apply ports_create_if_inv|].
    intros [[[] lst'] h'] w' H; simpl; [by apply IH|done].
Qed.

Lemma listening_ports_open_post cfg w :
  wf w →
  wp (listening_ports_open os plat str_is_ip6 cfg)
     (post (warned plat cfg w) (do_auto_of plat cfg) (do_udp cfg)) w.
Proof.
  intros Hwf. assert (0 ≤ next_fd w) as H0 by (by destruct Hwf).
  unfold listening_ports_open, warned, do_auto_of, do_ip6_of, num_ifs.
  destruct cfg as [p i4 i6 u t a n l]; simpl.
  destruct i4, i6, (have_INET6 plat), a, u; simpl;
    try (apply wp_ret; apply inv_post, inv_init; done).
  all: try (apply wp_bind; eapply wp_eq; [reflexivity|]).
  all: destruct (Z.of_nat (length l) =? 0) eqn:El; simpl.
  all: try (apply ports_open_ifs_post; [exact H0|apply inv_init; exact Hwf]).
  all: repeat first
    [ apply wp_ret; by apply inv_post
    | done
    | lazymatch goal with
      | |- wp (bind _ _) (post ?w0 ?a ?u) _ =>
          apply wp_bind; eapply wp_mono;
          [ apply (ports_create_if_inv w0 a u);
            [ reflexivity | exact H0
            | first [apply inv_init; exact Hwf|assumption] ]
          | intros [[[] ?] ?] ? ?; simpl ]
      end ].
Qed.

End listener_facts.

(** ** The calls of a run *)




Section make_sock_calls_facts.
Variable os : nat → oscall → option errno.
Variable plat : platform.


End make_sock_calls_facts.




Section calls_facts.
Variable os : nat → oscall → option errno.
Variable plat : platform.
Variable str_is_ip6 : string → bool.









Lemma wf_log_warn msg w : wf w → wf (log_warn msg w).2.
Proof. done. Qed.


End calls_facts.

(** ** The sockets of a run on which every call succeeds *)


Lemma lookup_fd_eq (m : gmap Z socket) k so : <[k := so]> m !! k = Some so.
Proof. apply lookup_insert_eq. Qed.

Lemma lookup_fd_ne (m : gmap Z socket) k k' so :
  k ≠ k' → <[k := so]> m !! k' = m !! k'.
Proof. apply lookup_insert_ne. Qed.

Ltac lookup_fds :=
  repeat first [rewrite lookup_fd_eq | rewrite lookup_fd_ne by lia].

Section ok_facts.
Variable os : nat → oscall → option errno.
Variable plat : platform.
Variable str_is_ip6 : string → bool.
Hypothesis Hok : ∀ n c, os n c = None.

Ltac kill_fail :=
  try match goal with
      | H : os _ _ = Some _ |- _ => rewrite Hok in H; discriminate H
      end.

Ltac wp_ok := wp_pci; kill_fail.

Lemma listening_ports_open_ok cfg w :
  wf w →
  ifs cfg = [] ∨ do_auto_of plat cfg = true →
  (do_auto_of plat cfg = true → pktinfo_ok plat = true) →
  wp (listening_ports_open os plat str_is_ip6 cfg) (λ r w',
      opened w' r (listen_sockets plat cfg (do_auto_of plat cfg)) ∧
      ∀ fd, fd ∉ map lp_fd r → fds w' !! fd = fds w !! fd) w.
Proof.
  intros Hwf Hifs Hpk. destruct w as [m n t l].
  unfold listening_ports_open, listen_sockets, sockets_for, do_auto_of, do_ip6_of,
    pktinfo_ok, tcp_of, num_ifs, opened in *.
  destruct cfg as [p i4 i6 u tc a nt ifl]; simpl in *.
  destruct (nt =? 0) eqn:Ent.
  all: destruct i4, i6, (have_INET6 plat), a, u, tc; simpl in *.
  all: try (apply wp_ret; split; reflexivity).
  all: try (destruct Hifs as [->|?]; [|discriminate]); simpl.
  all: try specialize (Hpk eq_refl).
  all: unfold ports_create_if, set_recvpktinfo, port_insert; simpl.
  all: repeat wp_ok.
  all: try (exfalso;
    repeat match goal with
           | E : _ plat = _ |- _ => rewrite E in Hpk; clear E
           end; simpl in Hpk; discriminate Hpk).
  all: (split;
    [ unfold opened, port_view; simpl; lookup_fds; simpl;
      repeat match goal with
             | H : so_type _ = _ |- _ => rewrite H; clear H
             | H : so_bound _ = _ |- _ => rewrite H; clear H
             end; reflexivity
    | intros fd Hni; simpl in Hni;
      repeat (apply not_elem_of_cons in Hni as [? Hni]);
      simpl; repeat (rewrite lookup_fd_ne by congruence); reflexivity ]).
Qed.
End ok_facts.

(** ** The claims about the listener *)

Lemma wf_world0 : wf world0.
Proof. split; [simpl; lia|]. intros fd [so H]. simpl in H. by rewrite lookup_empty in H. Qed.

(** C1: a hard failure does not always release what was opened.  When
    [setsockopt(IPV6_RECVPKTINFO)] fails on the first datagram socket of
    an [interface-automatic] run, [listening_ports_open] returns the
    empty list and descriptor 3, that socket, is still open.  When
    [bind] fails with [EADDRINUSE] on the first stream socket of a
    default run, it returns the empty list, the datagram socket 3 that
    was in the list is closed, and descriptor 4, the stream socket, is
    still open. *)
Theorem listening_ports_open_leaks_descriptor :
  let r1 := listening_ports_open os_no_pktinfo linux has_colon cfg_automatic world0 in
  let r2 := listening_ports_open os_tcp_in_use linux has_colon cfg_default world0 in
  (r1.1 = [] ∧ so_type <$> fds r1.2 !! 3 = Some SOCK_DGRAM) ∧
  (r2.1 = [] ∧ fds r2.2 !! 3 = None ∧ so_type <$> fds r2.2 !! 4 = Some SOCK_STREAM).
Proof. vm_compute. repeat split. Qed.

(** C3, as stated, fails: with [interface-automatic] set, IPv4 only and
    UDP disabled, the stream socket is opened and no warning is
    written. *)
Lemma if_automatic_without_udp_gives_no_warning :
  let r := listening_ports_open os_ok linux has_colon cfg_ip4_tcp_automatic world0 in
  if_automatic cfg_ip4_tcp_automatic = true ∧
  do_ip4 cfg_ip4_tcp_automatic = true ∧ do_ip6 cfg_ip4_tcp_automatic = false ∧
  r.1 = [{| lp_fd := 3; lp_ftype := listen_type_tcp |}] ∧
  Log_warn interface_automatic_warning ∉ logs r.2.
Proof. vm_compute. repeat split. apply not_elem_of_nil. Qed.


(** C5, as stated, fails: with [interface-automatic] set and UDP
    disabled the stream sockets are bound to the loopback addresses,
    not to the wildcard addresses. *)
Lemma if_automatic_without_udp_binds_loopback :
  let r := listening_ports_open os_ok linux has_colon cfg_tcp_only world0 in
  if_automatic cfg_tcp_only = true ∧ ifs cfg_tcp_only = [] ∧
  opened r.2 r.1 (listen_sockets linux cfg_tcp_only false) ∧
  ¬ opened r.2 r.1 (listen_sockets linux cfg_tcp_only true).
Proof. vm_compute. repeat split. discriminate. Qed.

Section listener_theorems.
Variable os : nat → oscall → option errno.
Variable plat : platform.
Variable str_is_ip6 : string → bool.

Abbreviation listening_ports_open := (listening_ports_open os plat str_is_ip6).
Abbreviation ports_open_ifs := (ports_open_ifs os plat str_is_ip6).
Abbreviation ports_create_if := (ports_create_if os plat).

Lemma listening_ports_open_warns cfg w :
  if_automatic cfg = true → do_udp cfg = true →
  xorb (do_ip4 cfg) (do_ip6_of plat cfg) = true →
  listening_ports_open cfg w =
  listening_ports_open (set_if_automatic false cfg)
    (log_warn interface_automatic_warning w).2.
Proof.
  unfold do_ip6_of, Listen.listening_ports_open. intros Ha Hu Hx.
  destruct cfg as [p i4 i6 u t a n l]; simpl in *; subst.
  destruct i4, i6, (have_INET6 plat); simpl in *; try discriminate; reflexivity.
Qed.

(** C3: if [if_automatic] and [do_udp] are set and exactly one of the
    two families is enabled, [listening_ports_open] writes the warning
    and then runs as it does with the option off; if moreover no
    interface is listed and every operating-system call succeeds, the
    result is not empty: it is the loopback sockets of the enabled
    family. *)
Theorem if_automatic_one_family_disabled cfg w :
  if_automatic cfg = true → do_udp cfg = true →
  xorb (do_ip4 cfg) (do_ip6_of plat cfg) = true →
  let cfg' := set_if_automatic false cfg in
  let w1 := (log_warn interface_automatic_warning w).2 in
  listening_ports_open cfg w = listening_ports_open cfg' w1 ∧
  ((∀ n c, os n c = None) → wf w → ifs cfg = [] →
   let r := listening_ports_open cfg w in
   r.1 ≠ [] ∧ opened r.2 r.1 (listen_sockets plat cfg false)).
Proof.
  intros Ha Hu Hx cfg' w1. split; [by apply listening_ports_open_warns|].
  intros Hok Hwf Hifs r. subst r. rewrite listening_ports_open_warns by done.
  pose proof (listening_ports_open_ok os plat str_is_ip6 Hok cfg' w1) as H.
  unfold wp in H. destruct H as [H _]; [done|by left| |].
  { unfold do_auto_of. simpl. discriminate. }
  fold cfg' w1. unfold do_auto_of in H. simpl in H.
  assert (listen_sockets plat cfg' false = listen_sockets plat cfg false) as E by done.
  rewrite E in H. split; [|done].
  intros Hnil. rewrite Hnil in H. unfold opened in H. simpl in H.
  unfold listen_sockets, sockets_for, do_ip6_of in *. rewrite Hu in H.
  destruct (do_ip4 cfg), (do_ip6 cfg && have_INET6 plat); simpl in *; discriminate.
Qed.

(** C9: with [do_udp] off, [listening_ports_open] runs as it does with
    [if_automatic] off: no port of type [listen_type_udpancil] is
    returned, and only error lines, no warning, are written. *)
Theorem if_automatic_needs_do_udp cfg w :
  do_udp cfg = false → wf w →
  let r := listening_ports_open cfg w in
  r = listening_ports_open (set_if_automatic false cfg) w ∧
  Forall (λ p, lp_ftype p ≠ listen_type_udpancil) r.1 ∧
  only_added is_Log_err (logs w) (logs r.2).
Proof.
  intros Hu Hwf r. split; [|].
  { subst r. unfold Listen.listening_ports_open.
    destruct cfg as [p i4 i6 u t a n l]; simpl in *; subst.
    rewrite !andb_false_r. reflexivity. }
  pose proof (listening_ports_open_post os plat str_is_ip6 cfg w Hwf) as H.
  unfold wp in H. fold r in H. destruct H as (_ & Hp & _ & _ & Hl).
  unfold warned, do_auto_of in *. rewrite Hu, !andb_false_r in *. simpl in *.
  split.
  - eapply Forall_impl; [exact Hp|]. intros p [_ Ht] E. rewrite E in Ht. done.
  - eapply only_added_weaken; [|exact Hl]. intros e [?|[? _]]; done.
Qed.

(** C10: an interface whose family is disabled is skipped: the loop
    over the interfaces continues with the rest from the same world (no
    socket, no system call, no log line), and a run whose list has an
    enabled interface is the run on the enabled interfaces alone. *)
Theorem disabled_family_interface_skipped cfg :
  (∀ ifname rest hints lst w,
     family_enabled plat str_is_ip6 cfg ifname = false →
     ports_open_ifs (ifname :: rest) (do_ip4 cfg) (do_ip6_of plat cfg)
       (do_udp cfg) (tcp_of cfg) hints (port cfg) lst w =
     ports_open_ifs rest (do_ip4 cfg) (do_ip6_of plat cfg)
       (do_udp cfg) (tcp_of cfg) hints (port cfg) lst w) ∧
  (∀ w,
     let enabled :=
       filter (λ i, family_enabled plat str_is_ip6 cfg i = true) (ifs cfg) in
     enabled ≠ [] →
     listening_ports_open cfg w = listening_ports_open (set_ifs enabled cfg) w).
Proof.
  assert (∀ ifname rest i4 i6 u t hints p lst w,
    (if str_is_ip6 ifname then i6 else i4) = false →
    ports_open_ifs (ifname :: rest) i4 i6 u t hints p lst w =
    ports_open_ifs rest i4 i6 u t hints p lst w) as Hskip.
  { intros. simpl. destruct (str_is_ip6 ifname); subst; reflexivity. }
  assert (∀ l i4 i6 u t hints p lst w,
    ports_open_ifs l i4 i6 u t hints p lst w =
    ports_open_ifs (filter (λ i, (if str_is_ip6 i then i6 else i4) = true) l)
      i4 i6 u t hints p lst w) as Hfilter.
  { induction l as [|i l IH]; intros; [done|].
    destruct (decide ((if str_is_ip6 i then i6 else i4) = true)) as [E|E].
    - rewrite filter_cons_True by done. simpl.
      destruct (str_is_ip6 i); rewrite E; simpl; unfold bind;
        destruct (Listen.ports_create_if _ _ _ _ _ _ _ _ _ _) as [[[[] l'] h'] w'];
        simpl; auto.
    - rewrite filter_cons_False by done. rewrite Hskip; [apply IH|].
      by destruct (if str_is_ip6 i then i6 else i4). }
  split.
  - intros. apply Hskip. done.
  - intros w enabled Hne. unfold Listen.listening_ports_open, num_ifs.
    destruct cfg as [p i4 i6 u t a n l]; simpl in *.
    assert (l ≠ []) as Hl. { intros ->. by apply Hne. }
    assert (∀ l' : list string, l' ≠ [] →
      (Z.of_nat (length l') =? 0) = false ∧
      (0 <? Z.of_nat (length l')) = true) as Hz.
    { intros [|x l'] Hx; [done|]. simpl length. split.
      - apply Z.eqb_neq. lia.
      - apply Z.ltb_lt. lia. }
    destruct (Hz l Hl) as [E1 E2]. destruct (Hz enabled Hne) as [E3 E4].
    rewrite E1, E2, E3, E4. subst enabled.
    unfold family_enabled, do_ip6_of in *. simpl in *.
    destruct (have_INET6 plat), i4, i6, a, u; simpl in *;
      try reflexivity; try (rewrite (Hfilter l); simpl; reflexivity).
    all: try (unfold bind; simpl; rewrite (Hfilter l); simpl; reflexivity).
Qed.


Lemma trace_warned cfg w : trace (warned plat cfg w) = trace w.
Proof. unfold warned. by destruct (_ && _). Qed.


(** C5: when every operating-system call succeeds: with no interface
    listed and [if_automatic] off, the sockets opened are exactly the
    enabled transports on [::1] (if IPv6 is enabled) and on [127.0.0.1]
    (if IPv4 is enabled); with [if_automatic], [do_udp] and both families
    on, and the destination-address options available, they are the
    enabled transports on [::0] and [0.0.0.0], the datagram sockets
    tagged [listen_type_udpancil].  No other descriptor changes. *)
Theorem default_and_automatic_sockets cfg w :
  (∀ n c, os n c = None) → wf w →
  let r := listening_ports_open cfg w in
  (ifs cfg = [] → if_automatic cfg = false →
     opened r.2 r.1 (listen_sockets plat cfg false) ∧
     ∀ fd, fd ∉ map lp_fd r.1 → fds r.2 !! fd = fds w !! fd) ∧
  (if_automatic cfg = true → do_udp cfg = true →
   do_ip4 cfg = true → do_ip6_of plat cfg = true →
   pktinfo_ok plat = true →
     opened r.2 r.1 (listen_sockets plat cfg true) ∧
     ∀ fd, fd ∉ map lp_fd r.1 → fds r.2 !! fd = fds w !! fd).
Proof.
  intros Hok Hwf r.
  pose proof (listening_ports_open_ok os plat str_is_ip6 Hok cfg w Hwf) as H.
  unfold wp in H. fold r in H. simpl in H. split.
  - intros Hi Ha. destruct H as [H ?]; [by left| |].
    { unfold do_auto_of. rewrite Ha. discriminate. }
    unfold do_auto_of in H. by rewrite Ha in H.
  - intros Ha Hu H4 H6 Hp.
    assert (do_auto_of plat cfg = true) as E.
    { unfold do_auto_of. by rewrite Ha, Hu, H4, H6. }
    destruct H as [H ?]; [by right|done|]. by rewrite E in H.
Qed.

End listener_theorems.

Lemma if_automatic_one_family_disabled_witness :
  listening_ports_open os_ok linux has_colon cfg_ip4_automatic world0 =
  listening_ports_open os_ok linux has_colon
    (set_if_automatic false cfg_ip4_automatic)
    (log_warn interface_automatic_warning world0).2 ∧
  (let r := listening_ports_open os_ok linux has_colon cfg_ip4_automatic world0 in
   r.1 ≠ [] ∧ opened r.2 r.1 (listen_sockets linux cfg_ip4_automatic false)).
Proof.
  destruct (if_automatic_one_family_disabled os_ok linux has_colon
              cfg_ip4_automatic world0 eq_refl eq_refl eq_refl) as [H1 H2].
  split; [exact H1|].
  exact (H2 (λ _ _, eq_refl) wf_world0 eq_refl).
Defined.

Lemma if_automatic_needs_do_udp_witness :
  let r := listening_ports_open os_ok linux has_colon cfg_tcp_only world0 in
  r = listening_ports_open os_ok linux has_colon
        (set_if_automatic false cfg_tcp_only) world0 ∧
  Forall (λ p, lp_ftype p ≠ listen_type_udpancil) r.1 ∧
  only_added is_Log_err (logs world0) (logs r.2).
Proof.
  apply (if_automatic_needs_do_udp os_ok linux has_colon cfg_tcp_only world0);
    [vm_compute; reflexivity|exact wf_world0].
Defined.

Lemma disabled_family_interface_skipped_witness :
  ports_open_ifs os_ok linux has_colon ["2001:db8::1"; "192.0.2.1"]
    (do_ip4 cfg_ifs) (do_ip6_of linux cfg_ifs) (do_udp cfg_ifs)
    (tcp_of cfg_ifs) hints0 (port cfg_ifs) [] world0 =
  ports_open_ifs os_ok linux has_colon ["192.0.2.1"]
    (do_ip4 cfg_ifs) (do_ip6_of linux cfg_ifs) (do_udp cfg_ifs)
    (tcp_of cfg_ifs) hints0 (port cfg_ifs) [] world0 ∧
  listening_ports_open os_ok linux has_colon cfg_ifs world0 =
  listening_ports_open os_ok linux has_colon
    (set_ifs (filter (λ i, family_enabled linux has_colon cfg_ifs i = true)
                (ifs cfg_ifs)) cfg_ifs) world0.
Proof.
  split.
  - apply (proj1 (disabled_family_interface_skipped os_ok linux has_colon
                    cfg_ifs)).
    vm_compute; reflexivity.
  - apply (proj2 (disabled_family_interface_skipped os_ok linux has_colon
                    cfg_ifs) world0).
    vm_compute; discriminate.
Defined.


Lemma default_and_automatic_sockets_witness :
  (let r := listening_ports_open os_ok linux has_colon cfg_default world0 in
   opened r.2 r.1 (listen_sockets linux cfg_default false) ∧
   ∀ fd, fd ∉ map lp_fd r.1 → fds r.2 !! fd = fds world0 !! fd) ∧
  (let r := listening_ports_open os_ok linux has_colon cfg_automatic world0 in
   opened r.2 r.1 (listen_sockets linux cfg_automatic true) ∧
   ∀ fd, fd ∉ map lp_fd r.1 → fds r.2 !! fd = fds world0 !! fd).
Proof.
  split.
  - exact (proj1 (default_and_automatic_sockets os_ok linux has_colon
                    cfg_default world0 (λ _ _, eq_refl) wf_world0)
             eq_refl eq_refl).
  - exact (proj2 (default_and_automatic_sockets os_ok linux has_colon
                    cfg_automatic world0 (λ _ _, eq_refl) wf_world0)
             eq_refl eq_refl eq_refl eq_refl eq_refl).
Defined.

(** * Properties of the comm points *)

Import Commpoint.

Section walk.
Variable f : comm_point → comm_point.
Hypothesis f_type : ∀ c, cp_type (f c) = cp_type c.
Hypothesis f_idem : ∀ c, f (f c) = f c.
Variable walk : list nat → gmap nat comm_point → gmap nat comm_point.
Hypothesis walk_nil : ∀ s, walk [] s = s.
Hypothesis walk_cons : ∀ com next s,
  walk (com :: next) s =
  match s !! com with
  | Some c =>
      if negb (is_comm_udp (cp_type c)) && negb (is_comm_tcp_accept (cp_type c))
      then walk next s else walk next (<[com := f c]> s)
  | None => walk next s
  end.

Lemma walk_lookup p s a :
  walk p s !! a =
  (λ c, if bool_decide (a ∈ p) &&
           (is_comm_udp (cp_type c) || is_comm_tcp_accept (cp_type c))
        then f c else c) <$> s !! a.
Proof.
  revert s. induction p as [|com next IH]; intros s.
  { rewrite walk_nil. destruct (s !! a); reflexivity. }
  assert (a ≠ com → bool_decide (a ∈ com :: next) = bool_decide (a ∈ next))
    as Hother.
  { intros Hne. apply bool_decide_ext. rewrite elem_of_cons.
    split; [by intros [?|?]|by right]. }
  rewrite walk_cons. destruct (s !! com) as [c|] eqn:Ec.
  - destruct (is_comm_udp (cp_type c) || is_comm_tcp_accept (cp_type c)) eqn:Et.
    + assert (negb (is_comm_udp (cp_type c)) &&
              negb (is_comm_tcp_accept (cp_type c)) = false) as ->.
      { destruct (is_comm_udp _), (is_comm_tcp_accept _); done. }
      rewrite IH. destruct (decide (a = com)) as [->|Hne].
      * rewrite lookup_insert_eq, Ec. simpl. f_equal.
        rewrite f_type, Et, f_idem, !andb_true_r.
        rewrite (bool_decide_eq_true_2 (com ∈ com :: next))
          by apply list_elem_of_here.
        by destruct (bool_decide _).
      * rewrite lookup_insert_ne by done. by rewrite Hother.
    + assert (negb (is_comm_udp (cp_type c)) &&
              negb (is_comm_tcp_accept (cp_type c)) = true) as ->.
      { destruct (is_comm_udp _), (is_comm_tcp_accept _); done. }
      rewrite IH. destruct (decide (a = com)) as [->|Hne].
      * rewrite Ec. simpl. by rewrite Et, !andb_false_r.
      * by rewrite Hother.
  - rewrite IH. destruct (decide (a = com)) as [->|Hne].
    + by rewrite Ec.
    + by rewrite Hother.
Qed.
End walk.

Lemma listen_pushback_lookup listen store a :
  listen_pushback listen store !! a =
  (λ c, if paused_by listen a c then comm_point_stop_listening c else c)
    <$> store !! a.
Proof.
  unfold listen_pushback, paused_by.
  by apply (walk_lookup comm_point_stop_listening).
Qed.

Lemma listen_resume_lookup listen store a :
  listen_resume listen store !! a =
  (λ c, if paused_by listen a c
        then comm_point_start_listening c (-1) (-1) else c)
    <$> store !! a.
Proof.
  unfold listen_resume, paused_by.
  by apply (walk_lookup (λ c, comm_point_start_listening c (-1) (-1))).
Qed.

(** C6: after [listen_pushback] every comm point of the listener of type
    [comm_udp] or [comm_tcp_accept] has stopped listening and every
    other comm point of the store is as it was; [listen_resume] starts
    listening on the same points and leaves the others; and a resume
    after a pushback restarts exactly the points the pushback stopped. *)
Theorem pushback_and_resume_act_on_listening_points listen store a :
  listen_pushback listen store !! a =
    (λ c, if paused_by listen a c then comm_point_stop_listening c else c)
      <$> store !! a ∧
  listen_resume listen store !! a =
    (λ c, if paused_by listen a c
          then comm_point_start_listening c (-1) (-1) else c)
      <$> store !! a ∧
  listen_resume listen (listen_pushback listen store) !! a =
    (λ c, if paused_by listen a c
          then comm_point_start_listening c (-1) (-1) else c)
      <$> store !! a.
Proof.
  split; [apply listen_pushback_lookup|]. split; [apply listen_resume_lookup|].
  rewrite listen_resume_lookup, listen_pushback_lookup.
  destruct (store !! a) as [c|]; [|done]. simpl. f_equal.
  unfold paused_by. destruct (bool_decide _); simpl; [|done].
  destruct (is_comm_udp (cp_type c) || is_comm_tcp_accept (cp_type c)) eqn:E;
    simpl; rewrite E; done.
Qed.

(** * Properties of the mesh *)

Section mesh_facts.
Import Mesh.
Local Open Scope nat_scope.

(** ** The order of the trees *)



Lemma compare_Eq a b : mesh_state_compare a b = Eq → a = b.
Proof.
  unfold mesh_state_compare. intros H%Pos.compare_eq. by apply (inj encode).
Qed.


Lemma rbtree_insert_elem x k t : x ∈ rbtree_insert k t ↔ x = k ∨ x ∈ t.
Proof.
  induction t as [|y t IH]; simpl.
  - rewrite list_elem_of_singleton. split; [by left|]. intros [?|H]; [done|].
    by apply elem_of_nil in H.
  - destruct (mesh_state_compare k y) eqn:E.
    + apply compare_Eq in E as ->. rewrite elem_of_cons. split; [by right|].
      intros [->|?]; [by left|done].
    + by rewrite elem_of_cons.
    + rewrite !elem_of_cons, IH. split; intros [?|[?|?]]; auto.
Qed.

Lemma rbtree_insert_not_nil k t : is_nil (rbtree_insert k t) = false.
Proof. destruct t as [|y t]; simpl; [done|]. by destruct (mesh_state_compare k y). Qed.




(** ** Sums over the states *)

Lemma msum_empty f : msum f ∅ = 0.
Proof. apply map_fold_empty. Qed.

Lemma msum_insert_None f a k s :
  a !! k = None → msum f (<[k := s]> a) = f s + msum f a.
Proof. intros. unfold msum. rewrite map_fold_insert_L; [done| |done]. intros. lia. Qed.

Lemma msum_delete f a k s :
  a !! k = Some s → msum f (delete k a) + f s = msum f a.
Proof.
  intros H. rewrite <-(insert_delete_id a k s) at 2 by done.
  rewrite msum_insert_None by apply lookup_delete_eq. lia.
Qed.

Lemma msum_insert_Some f a k s0 s :
  a !! k = Some s0 → msum f (<[k := s]> a) + f s0 = f s + msum f a.
Proof.
  intros H. rewrite <-insert_delete_eq.
  rewrite msum_insert_None by apply lookup_delete_eq.
  pose proof (msum_delete f a k s0 H). lia.
Qed.

Lemma msum_state_update f g k a :
  (∀ s, f (g s) = f s) → msum f (state_update g k a) = msum f a.
Proof.
  intros Hg. unfold state_update. destruct (a !! k) as [s|] eqn:E; [|done].
  pose proof (msum_insert_Some f a k s (g s) E). rewrite Hg in *. lia.
Qed.

Lemma msum_count P a : msum (λ s, bool_to_nat (P s)) a = count_states P a.
Proof.
  unfold count_states. induction a as [|k s a Hk _ IH] using map_first_key_ind.
  { by rewrite msum_empty, map_filter_empty, map_size_empty. }
  rewrite msum_insert_None, IH by done. destruct (P s) eqn:E; simpl.
  - rewrite map_filter_insert_True by done.
    rewrite map_size_insert_None; [done|].
    apply map_lookup_filter_None. by left.
  - rewrite map_filter_insert_not'; [done|simpl; congruence|].
    intros y. by rewrite Hk.
Qed.

Lemma msum_le f g a : (∀ s, f s ≤ g s) → msum f a ≤ msum g a.
Proof.
  intros Hfg. induction a as [|k s a Hk _ IH] using map_first_key_ind.
  { by rewrite !msum_empty. }
  rewrite !msum_insert_None by done. specialize (Hfg s). lia.
Qed.

Lemma msum_size f g a :
  (∀ s, f s + g s ≤ 1) → msum f a + msum g a ≤ size a.
Proof.
  intros Hfg. induction a as [|k s a Hk _ IH] using map_first_key_ind.
  { by rewrite !msum_empty. }
  rewrite !msum_insert_None, map_size_insert_None by done.
  specialize (Hfg s). lia.
Qed.

Lemma msum_ge f a k s : a !! k = Some s → f s ≤ msum f a.
Proof. intros H. pose proof (msum_delete f a k s H). lia. Qed.

(** ** The counters *)

Lemma counters_create n : counters_ok (mesh_create n).
Proof. unfold counters_ok. simpl. by rewrite !msum_empty. Qed.

Lemma counters_same mesh mesh' :
  counters_ok mesh → all mesh' = all mesh →
  num_reply_addrs mesh' = num_reply_addrs mesh →
  num_reply_states mesh' = num_reply_states mesh →
  num_detached_states mesh' = num_detached_states mesh →
  counters_ok mesh'.
Proof. unfold counters_ok. intros ? -> -> -> ->. done. Qed.

Lemma counters_upd mesh mesh' k s0 s :
  counters_ok mesh → all mesh !! k = Some s0 →
  all mesh' = <[k := s]> (all mesh) →
  num_reply_addrs mesh' + length (reply_list s0) =
    num_reply_addrs mesh + length (reply_list s) →
  num_reply_states mesh' + bool_to_nat (has_replies s0) =
    num_reply_states mesh + bool_to_nat (has_replies s) →
  num_detached_states mesh' + bool_to_nat (is_detached s0) =
    num_detached_states mesh + bool_to_nat (is_detached s) →
  counters_ok mesh'.
Proof.
  unfold counters_ok. intros (H1 & H2 & H3) Hk -> E1 E2 E3.
  pose proof (msum_insert_Some (λ s, length (reply_list s)) _ k s0 s Hk).
  pose proof (msum_insert_Some (λ s, bool_to_nat (has_replies s)) _ k s0 s Hk).
  pose proof (msum_insert_Some (λ s, bool_to_nat (is_detached s)) _ k s0 s Hk).
  simpl in *. lia.
Qed.

Lemma counters_new mesh mesh' k s :
  counters_ok mesh → all mesh !! k = None →
  all mesh' = <[k := s]> (all mesh) →
  num_reply_addrs mesh' = num_reply_addrs mesh + length (reply_list s) →
  num_reply_states mesh' = num_reply_states mesh + bool_to_nat (has_replies s) →
  num_detached_states mesh' =
    num_detached_states mesh + bool_to_nat (is_detached s) →
  counters_ok mesh'.
Proof.
  unfold counters_ok. intros (H1 & H2 & H3) Hk -> E1 E2 E3.
  rewrite !msum_insert_None by done. lia.
Qed.

(** What the counters are at least, when a state is in the mesh. *)
Lemma counters_ge mesh k s :
  counters_ok mesh → all mesh !! k = Some s →
  length (reply_list s) ≤ num_reply_addrs mesh ∧
  bool_to_nat (has_replies s) ≤ num_reply_states mesh ∧
  bool_to_nat (is_detached s) ≤ num_detached_states mesh.
Proof.
  unfold counters_ok. intros (-> & -> & ->) Hk.
  split; [|split].
  - apply (msum_ge (λ s, length (reply_list s)) _ k s Hk).
  - apply (msum_ge (λ s, bool_to_nat (has_replies s)) _ k s Hk).
  - apply (msum_ge (λ s, bool_to_nat (is_detached s)) _ k s Hk).
Qed.

(** An update of the sub-set or of the module position of a state leaves
    the counters right. *)
Lemma counters_state_update mesh g k :
  (∀ s, reply_list (g s) = reply_list s ∧ super_set (g s) = super_set s) →
  counters_ok mesh → counters_ok (set_all (state_update g k (all mesh)) mesh).
Proof.
  unfold counters_ok. intros Hg (H1 & H2 & H3). simpl.
  rewrite !msum_state_update; [done|..]; intros s; destruct (Hg s) as [E1 E2];
    unfold is_detached, has_replies; by rewrite ?E1, ?E2.
Qed.

Lemma attached_not_detached k t s :
  is_detached (set_super_set (rbtree_insert k t) s) = false.
Proof.
  unfold is_detached. simpl. by rewrite rbtree_insert_not_nil, andb_false_r.
Qed.

Lemma counters_attachment mesh super k s0 :
  counters_ok mesh → all mesh !! k = Some s0 →
  counters_ok
    (set_num_detached_states
       (num_detached_states mesh - bool_to_nat (is_detached s0))
       (mesh_state_attachment super k mesh)).
Proof.
  intros Hc Hk. unfold mesh_state_attachment.
  set (s1 := set_super_set (rbtree_insert super (super_set s0)) s0).
  assert (counters_ok
            (set_num_detached_states
               (num_detached_states mesh - bool_to_nat (is_detached s0))
               (set_all (<[k := s1]> (all mesh)) mesh))) as Hc1.
  { pose proof (counters_ge mesh k s0 Hc Hk) as (_ & _ & Hge).
    eapply (counters_upd mesh _ k s0 s1);
      [done..|subst s1; simpl; lia|subst s1; unfold has_replies; simpl; lia|].
    subst s1. simpl. rewrite attached_not_detached. simpl. lia. }
  pose proof (counters_state_update _
                (λ s, set_sub_set (rbtree_insert k (sub_set s)) s) super
                (λ _, conj eq_refl eq_refl) Hc1) as Hc2.
  eapply counters_same; [exact Hc2|..]; simpl; try done.
  unfold state_update at 2. by rewrite Hk.
Qed.

Lemma counters_attach_sub mesh super k alloc :
  counters_ok mesh → counters_ok (mesh_attach_sub mesh super k alloc).1.1.
Proof.
  intros Hc. unfold mesh_attach_sub, mesh_area_find.
  destruct (mesh_detect_cycle mesh super k); [done|].
  destruct (negb alloc && _); [done|].
  destruct (all mesh !! k) as [s0|] eqn:Hk.
  - destruct (rbtree_search _ _); simpl; [done|].
    rewrite Hk. by apply counters_attachment.
  - set (mesh1 := set_num_detached_states _ _).
    assert (counters_ok mesh1) as Hc1.
    { eapply (counters_new mesh _ k mesh_state_create); done. }
    destruct (rbtree_search _ _); simpl; [done|].
    rewrite lookup_insert_eq. apply counters_attachment; [done|].
    simpl. apply lookup_insert_eq.
Qed.

Lemma counters_detach_one k mesh sub :
  counters_ok mesh → counters_ok (detach_one k mesh sub).
Proof.
  intros Hc. unfold detach_one. destruct (all mesh !! sub) as [ss|] eqn:Hs; [|done].
  eapply (counters_upd mesh _ sub ss);
    [done..|simpl; lia|unfold has_replies; simpl; lia|].
  simpl. unfold is_detached. simpl.
  destruct (reply_list ss), (super_set ss) as [|x t]; simpl; try lia.
  all: destruct (rbtree_delete k (x :: t)); simpl; lia.
Qed.

Lemma counters_foldl {A} (f : mesh_area → A → mesh_area) l mesh :
  (∀ m x, counters_ok m → counters_ok (f m x)) →
  counters_ok mesh → counters_ok (foldl f mesh l).
Proof. intros Hf. revert mesh. induction l; simpl; auto. Qed.

Lemma counters_detach_subs mesh k :
  counters_ok mesh → counters_ok (mesh_detach_subs mesh k).
Proof.
  intros Hc. unfold mesh_detach_subs. destruct (all mesh !! k); [|done].
  apply counters_state_update; [done|].
  apply counters_foldl; [|done]. intros. by apply counters_detach_one.
Qed.

Lemma counters_query_done mesh k :
  counters_ok mesh → counters_ok (mesh_query_done mesh k).
Proof.
  intros Hc. unfold mesh_query_done. destruct (all mesh !! k) as [s|] eqn:Hk; [|done].
  pose proof (counters_ge mesh k s Hc Hk) as (? & ? & ?).
  eapply (counters_upd mesh _ k s); [done..| | |]; simpl.
  - lia.
  - unfold has_replies in *. simpl. lia.
  - unfold is_detached, has_replies in *. simpl.
    destruct (reply_list s), (super_set s); simpl; lia.
Qed.

Lemma counters_supers_runnable mesh k :
  counters_ok mesh → counters_ok (mesh_supers_runnable mesh k).
Proof.
  intros Hc. unfold mesh_supers_runnable. apply counters_foldl; [|done].
  intros m x Hm.
  pose proof (counters_state_update m
                (set_pending_event module_event_moddone) x
                (λ _, conj eq_refl eq_refl) Hm) as Hm2.
  by eapply counters_same.
Qed.

(** Removing [k] from the sub-sets of its super-states changes neither
    the sums nor the replies and super-states of any state. *)
Lemma unlink_supers f k l a :
  (∀ s t, f (set_sub_set t s) = f s) →
  let a' := foldl (λ a sup,
              state_update
                (λ ss, set_sub_set (rbtree_delete k (sub_set ss)) ss) sup a)
              a l in
  msum f a' = msum f a ∧ ∀ x, f <$> a' !! x = f <$> a !! x.
Proof.
  intros Hf. revert a. induction l as [|sup l IH]; intros a; simpl; [done|].
  destruct (IH (state_update
                  (λ ss, set_sub_set (rbtree_delete k (sub_set ss)) ss) sup a))
    as [-> Hl].
  split.
  - apply msum_state_update. intros. apply Hf.
  - intros x. rewrite Hl. unfold state_update.
    destruct (a !! sup) as [ss|] eqn:E; [|done].
    destruct (decide (x = sup)) as [->|].
    + rewrite lookup_insert_eq, E. simpl. by rewrite Hf.
    + by rewrite lookup_insert_ne.
Qed.

Lemma counters_state_delete mesh k :
  counters_ok mesh → counters_ok (mesh_state_delete mesh k).
Proof.
  intros Hc%(counters_detach_subs _ k). unfold mesh_state_delete.
  destruct (all (mesh_detach_subs mesh k) !! k) as [s|] eqn:Hk; [|done].
  set (mesh1 := mesh_detach_subs mesh k) in *.
  pose proof (counters_ge mesh1 k s Hc Hk) as (? & ? & ?).
  destruct Hc as (C1 & C2 & C3). unfold counters_ok. simpl.
  set (a := foldl _ _ _).
  destruct (unlink_supers (λ s, length (reply_list s)) k (super_set s) (all mesh1))
    as [E1 L1]; [done|].
  destruct (unlink_supers (λ s, bool_to_nat (has_replies s)) k (super_set s)
              (all mesh1)) as [E2 L2]; [done|].
  destruct (unlink_supers (λ s, bool_to_nat (is_detached s)) k (super_set s)
              (all mesh1)) as [E3 L3]; [done|].
  fold a in E1, E2, E3, L1, L2, L3.
  specialize (L1 k). specialize (L2 k). specialize (L3 k).
  rewrite Hk in L1, L2, L3. simpl in *.
  destruct (a !! k) as [s'|] eqn:Ha; [|done]. simpl in *.
  pose proof (msum_delete (λ s, length (reply_list s)) a k s' Ha).
  pose proof (msum_delete (λ s, bool_to_nat (has_replies s)) a k s' Ha).
  pose proof (msum_delete (λ s, bool_to_nat (is_detached s)) a k s' Ha).
  simpl in *. simplify_eq. lia.
Qed.

Lemma counters_continue mesh k s :
  counters_ok mesh → counters_ok (mesh_continue mesh k s).
Proof.
  intros Hc. destruct s; simpl; [done|..].
  - pose proof (counters_state_update mesh
                  (λ st, set_curmod (curmod st + 1) st) k
                  (λ _, conj eq_refl eq_refl) Hc) as Hc2.
    by eapply counters_same.
  - pose proof (counters_state_update mesh
                  (λ st, set_curmod (curmod st - 1) st) k
                  (λ _, conj eq_refl eq_refl) Hc) as Hc2.
    by eapply counters_same.
  - by apply counters_state_delete, counters_supers_runnable, counters_query_done.
  - by apply counters_state_delete, counters_supers_runnable, counters_query_done.
Qed.

Lemma counters_do_call cur mesh c :
  counters_ok mesh → counters_ok (mesh_do_call cur mesh c).
Proof.
  intros Hc. destruct c; simpl; [|by apply counters_detach_subs
                                 |by apply counters_query_done|done].
  by apply counters_attach_sub.
Qed.

Section run_facts.
Variable operate :
  nat → mesh_area → query_key → nat → module_ev →
  list mesh_call * module_ext_state.

Lemma counters_run_state tick mesh k ev :
  counters_ok mesh → counters_ok (mesh_run_state operate tick mesh k ev).1.
Proof.
  intros Hc. unfold mesh_run_state. destruct (all mesh !! k); [|done].
  destruct (operate _ _ _ _ _) as [calls s]. simpl.
  apply counters_continue, counters_state_update; [done|].
  apply counters_foldl; [|done]. intros. by apply counters_do_call.
Qed.

Lemma counters_run_queue fuel tick mesh :
  counters_ok mesh → counters_ok (mesh_run_queue operate fuel tick mesh).1.
Proof.
  revert tick mesh. induction fuel as [|fuel IH]; intros tick mesh Hc;
    simpl; [done|].
  destruct (run mesh) as [|next rest]; [done|].
  pose proof (counters_run_state tick (set_run rest mesh) next
                (default module_event_pass (pending mesh next))) as Hs.
  destruct (mesh_run_state _ _ _ _ _) as [mesh1 called].
  specialize (IH (S tick) mesh1).
  destruct (mesh_run_queue _ _ _ _) as [mesh2 tr]. simpl in *.
  apply IH, Hs. by eapply counters_same.
Qed.

Lemma counters_run fuel tick mesh k ev :
  counters_ok mesh → counters_ok (mesh_run operate fuel tick mesh k ev).1.
Proof.
  intros Hc. unfold mesh_run.
  pose proof (counters_run_state tick mesh k ev Hc) as Hs.
  destruct (mesh_run_state _ _ _ _ _) as [mesh1 called].
  pose proof (counters_run_queue fuel (S tick) mesh1 Hs) as Hq.
  by destruct (mesh_run_queue _ _ _ _) as [mesh2 tr].
Qed.

Lemma counters_new_client fuel mesh k rep alloc :
  counters_ok mesh →
  counters_ok (mesh_new_client operate fuel mesh k rep alloc).1.
Proof.
  intros Hc. unfold mesh_new_client, mesh_area_find. destruct alloc; simpl; [|done].
  destruct (all mesh !! k) as [s|] eqn:Hk; simpl.
  - pose proof (counters_ge mesh k s Hc Hk) as (? & ? & ?).
    eapply (counters_upd mesh _ k s); [done..| | |]; simpl.
    + rewrite length_app. simpl. lia.
    + unfold has_replies. simpl. destruct (reply_list s); simpl; lia.
    + unfold is_detached in *. simpl.
      destruct (reply_list s), (super_set s); simpl in *; lia.
  - apply counters_run.
    eapply (counters_new mesh _ k); [done..|simpl; lia|simpl; lia|simpl; lia].
Qed.

Lemma counters_apply mesh op :
  counters_ok mesh → counters_ok (mesh_apply operate mesh op).
Proof.
  intros Hc. destruct op; simpl.
  - by apply counters_new_client.
  - by apply counters_run.
  - by apply counters_attach_sub.
  - by apply counters_detach_subs.
  - by apply counters_query_done.
  - by apply counters_state_delete.
Qed.

End run_facts.

Lemma counters_ops operate n ops :
  counters_ok (foldl (mesh_apply operate) (mesh_create n) ops).
Proof.
  apply counters_foldl; [|apply counters_create].
  intros. by apply counters_apply.
Qed.

(** C8: after every sequence of mesh operations from the empty mesh,
    [num_reply_states] is at most [num_reply_addrs], [num_reply_states]
    is the number of states with a reply and [num_detached_states] is
    the number of states with no reply and no super-state; hence
    [num_detached_states] is at most the number of states less
    [num_reply_states]. *)
Theorem mesh_counters_invariant operate n ops :
  let mesh := foldl (mesh_apply operate) (mesh_create n) ops in
  num_reply_states mesh ≤ num_reply_addrs mesh ∧
  num_reply_states mesh = count_states has_replies (all mesh) ∧
  num_detached_states mesh = count_states is_detached (all mesh) ∧
  num_reply_states mesh ≤ size (all mesh) ∧
  num_detached_states mesh ≤ size (all mesh) - num_reply_states mesh.
Proof.
  intros mesh. destruct (counters_ops operate n ops) as (H1 & H2 & H3).
  fold mesh in H1, H2, H3.
  assert (num_detached_states mesh + num_reply_states mesh ≤ size (all mesh)).
  { rewrite H2, H3. apply msum_size. intros s.
    unfold is_detached, has_replies.
    destruct (reply_list s), (super_set s); simpl; lia. }
  split; [|split; [|split; [|split; lia]]].
  - rewrite H1, H2. apply msum_le. intros s. unfold has_replies.
    destruct (reply_list s); simpl; lia.
  - by rewrite H2, msum_count.
  - by rewrite H3, msum_count.
Qed.

(** ** Attaching a sub-state *)

Lemma lookup_state_update g k a x :
  state_update g k a !! x = if decide (x = k) then g <$> a !! k else a !! x.
Proof.
  unfold state_update. destruct (a !! k) as [s|] eqn:E.
  - destruct (decide (x = k)) as [->|].
    + by rewrite lookup_insert_eq.
    + by rewrite lookup_insert_ne.
  - destruct (decide (x = k)) as [->|]; [by rewrite E|done].
Qed.

Lemma size_state_update g k a : size (state_update g k a) = size a.
Proof.
  unfold state_update. destruct (a !! k) eqn:E; [|done].
  by apply map_size_insert_Some.
Qed.

Lemma find_in_subsub_ext fuel a a' tofind k v :
  (∀ x, x ≠ tofind → subs_of a x = subs_of a' x) →
  find_in_subsub fuel a tofind k v = find_in_subsub fuel a' tofind k v.
Proof.
  intros H. revert k v. induction fuel as [|fuel IH]; intros k v; simpl; [done|].
  destruct (decide (k = tofind)); [done|].
  destruct (decide (k ∈ v)); [done|].
  rewrite <-H by done. generalize (subs_of a k).
  generalize (false, {[k]} ∪ v). intros acc l. revert acc.
  induction l as [|x l IHl]; intros acc; simpl; [done|].
  destruct acc.1; [apply IHl|]. rewrite IH. apply IHl.
Qed.

(** A state without sub-states reaches no other state. *)
Lemma detect_cycle_leaf mesh from k :
  k ≠ from → subs_of (all mesh) k = [] → mesh_detect_cycle mesh from k = false.
Proof.
  intros Hne Hs. unfold mesh_detect_cycle. simpl.
  rewrite decide_False by done. rewrite decide_False by apply not_elem_of_empty.
  by rewrite Hs.
Qed.

Lemma attachment_lookup super k mesh x :
  all (mesh_state_attachment super k mesh) !! x =
  (λ s, if decide (x = super)
        then set_sub_set (rbtree_insert k (sub_set s))
               (if decide (x = k)
                then set_super_set (rbtree_insert super (super_set s)) s
                else s)
        else if decide (x = k)
             then set_super_set (rbtree_insert super (super_set s)) s
             else s) <$> all mesh !! x.
Proof.
  unfold mesh_state_attachment. simpl. rewrite !lookup_state_update.
  repeat case_decide; simplify_eq; try done; by destruct (all mesh !! _).
Qed.

Lemma attachment_subs super k mesh x :
  x ≠ super →
  subs_of (all (mesh_state_attachment super k mesh)) x = subs_of (all mesh) x.
Proof.
  intros Hx. unfold subs_of. rewrite attachment_lookup.
  destruct (all mesh !! x) as [s|]; simpl; [|done].
  rewrite decide_False by done. by destruct (decide (x = k)).
Qed.

Lemma attachment_attached super k mesh :
  is_Some (all mesh !! super) →
  k ∈ subs_of (all (mesh_state_attachment super k mesh)) super.
Proof.
  intros [s Hs]. unfold subs_of. rewrite attachment_lookup, Hs. simpl.
  rewrite decide_True by done. simpl. apply rbtree_insert_elem. by left.
Qed.

Lemma attachment_size super k mesh :
  size (all (mesh_state_attachment super k mesh)) = size (all mesh).
Proof. unfold mesh_state_attachment. simpl. by rewrite !size_state_update. Qed.

Lemma all_set_num n mesh : all (set_num_detached_states n mesh) = all mesh.
Proof. done. Qed.

Lemma detect_cycle_set_num n mesh super k :
  mesh_detect_cycle (set_num_detached_states n mesh) super k =
  mesh_detect_cycle mesh super k.
Proof. done. Qed.

(** A sub-state that exists and is attached is attached again without
    change. *)
Lemma attach_sub_again mesh super k alloc :
  is_Some (all mesh !! k) →
  k ∈ subs_of (all mesh) super →
  mesh_detect_cycle mesh super k = false →
  mesh_attach_sub mesh super k alloc = (mesh, true, None).
Proof.
  intros [s Hk] Ha Hc. unfold mesh_attach_sub, mesh_area_find, rbtree_search.
  rewrite Hc, Hk, (bool_decide_eq_true_2 _ Ha).
  rewrite (bool_decide_eq_true_2 (is_Some (Some s))) by done.
  simpl. by rewrite andb_false_r.
Qed.

Lemma attach_sub_twice mesh super k alloc alloc' mesh1 newq :
  is_Some (all mesh !! super) →
  mesh_attach_sub mesh super k alloc = (mesh1, true, newq) →
  mesh_attach_sub mesh1 super k alloc' = (mesh1, true, None).
Proof.
  intros Hsuper H. unfold mesh_attach_sub, mesh_area_find in H.
  destruct (mesh_detect_cycle mesh super k) eqn:Hcyc; [by simplify_eq|].
  destruct (negb alloc && _); [by simplify_eq|].
  assert (∀ m, is_Some (all m !! k) → is_Some (all m !! super) →
            size (all m) = size (all mesh) →
            (∀ x, x ≠ super → subs_of (all m) x = subs_of (all mesh) x) →
            mesh_detect_cycle (mesh_state_attachment super k m) super k = false)
    as Hreach.
  { intros m _ _ Hsize Hsubs. unfold mesh_detect_cycle in *.
    rewrite attachment_size, Hsize.
    rewrite (find_in_subsub_ext _ _ (all mesh)); [done|].
    intros x Hx. by rewrite attachment_subs, Hsubs. }
  destruct (all mesh !! k) as [s0|] eqn:Hk.
  - destruct (rbtree_search _ _) eqn:Ha; simplify_eq.
    + apply attach_sub_again; [by rewrite Hk| |done].
      by apply bool_decide_eq_true_1 in Ha.
    + apply (attach_sub_again (set_num_detached_states _ _));
        rewrite ?detect_cycle_set_num, ?all_set_num.
      * rewrite attachment_lookup, Hk. done.
      * by apply attachment_attached.
      * apply Hreach; [by rewrite Hk|done..].
  - assert (k ≠ super) as Hne.
    { intros ->. rewrite Hk in Hsuper. by destruct Hsuper. }
    set (mesh0 := set_num_detached_states _ _) in H.
    assert (all mesh0 !! k = Some mesh_state_create) as Hk0.
    { apply lookup_insert_eq. }
    assert (∀ x, x ≠ k → all mesh0 !! x = all mesh !! x) as Hother.
    { intros x Hx. simpl. by apply lookup_insert_ne. }
    destruct (rbtree_search _ _) eqn:Ha; simplify_eq.
    + apply attach_sub_again; [by rewrite Hk0| |].
      * unfold subs_of. rewrite Hother by done.
        by apply bool_decide_eq_true_1 in Ha.
      * apply detect_cycle_leaf; [done|]. unfold subs_of. by rewrite Hk0.
    + apply (attach_sub_again (set_num_detached_states _ _));
        rewrite ?detect_cycle_set_num, ?all_set_num.
      * rewrite attachment_lookup, Hk0. done.
      * apply attachment_attached. by rewrite Hother.
      * apply detect_cycle_leaf; [done|].
        rewrite attachment_subs by done. unfold subs_of. by rewrite Hk0.
Qed.

(** C7: when [mesh_attach_sub] has attached the sub-state [k] to a state
    [super] of the mesh, a second call for the same states, whether
    memory can be allocated or not, succeeds, returns the mesh as it
    was, with every edge and every counter, and returns no new state in
    [newq]. *)
Theorem attach_sub_twice_is_idempotent mesh super k alloc alloc' :
  is_Some (all mesh !! super) →
  (mesh_attach_sub mesh super k alloc).1.2 = true →
  mesh_attach_sub (mesh_attach_sub mesh super k alloc).1.1 super k alloc' =
  ((mesh_attach_sub mesh super k alloc).1.1, true, None).
Proof.
  intros Hsuper Hok.
  destruct (mesh_attach_sub mesh super k alloc) as [[mesh1 ok] newq] eqn:E.
  simpl in *. subst ok. by eapply attach_sub_twice.
Qed.

(** ** The completion of a state *)







(** *** Pending events *)

















(** *** What the calls of a module and a turn of the scheduler keep *)









Section queue.
Variable operate :
  nat → mesh_area → query_key → nat → module_ev →
  list mesh_call * module_ext_state.



End queue.



(** ** The scenarios of the specification *)

(** Two clients, two states with a reply each, and their common
    sub-state, which is not detached. *)
Example fanout_counters :
  (num_reply_addrs fanout_mesh, num_reply_states fanout_mesh,
   num_detached_states fanout_mesh, size (all fanout_mesh)) = (2, 2, 0, 3).
Proof. vm_compute. reflexivity. Qed.

(** [u.test.] cannot take its super-state [s1.test.] for a sub-state:
    the call fails and the mesh is as it was. *)
Example cycle_refused :
  mesh_detect_cycle fanout_mesh (key_of "u.test.") (key_of "s1.test.") = true ∧
  (mesh_attach_sub fanout_mesh (key_of "u.test.") (key_of "s1.test.") true).1.2
    = false.
Proof. split; vm_compute; reflexivity. Qed.

(** After the reply for [u.test.] every state has finished: both clients
    are answered and the mesh is empty. *)
Example fanout_completes :
  let mesh := (mesh_report_reply fanout_operate 8 fanout_mesh
                 (key_of "u.test.")).1 in
  (replies_sent mesh, size (all mesh), run mesh) = (2, 0, []).
Proof. vm_compute. reflexivity. Qed.

(** The fan-out scenario: when the reply for [u.test.] has come it
    finishes, and its super-states [s1.test.] and [s2.test.] are
    operated with [module_event_moddone], in the order of the
    super-set. *)
Example fanout_events :
  (mesh_report_reply fanout_operate 8 fanout_mesh (key_of "u.test.")).2 =
  [(key_of "u.test.", module_event_reply);
   (key_of "s1.test.", module_event_moddone);
   (key_of "s2.test.", module_event_moddone)].
Proof. vm_compute. reflexivity. Qed.


Lemma attach_sub_twice_is_idempotent_witness :
  mesh_attach_sub
    (mesh_attach_sub fanout_mesh (key_of "s1.test.") (key_of "v.test.") true).1.1
    (key_of "s1.test.") (key_of "v.test.") false =
  ((mesh_attach_sub fanout_mesh (key_of "s1.test.") (key_of "v.test.")
      true).1.1, true, None).
Proof.
  apply (attach_sub_twice_is_idempotent fanout_mesh (key_of "s1.test.")
           (key_of "v.test.") true false).
  - apply (bool_decide_unpack _); vm_compute; exact I.
  - vm_compute; reflexivity.
Defined.

End mesh_facts.

(** * Further properties of the listener *)

(** ** The sockets *)

Ltac in_list :=
  simpl; solve [repeat first [apply list_elem_of_here | apply list_elem_of_further]].

Ltac leaf2 :=
  repeat match goal with
  | |- _ ∧ _ => split
  | |- wf _ => solve_wf
  | |- grew _ _ => unfold grew; simpl; lia
  | |- _ ∨ _ → _ => intros [?|?]
  | |- _ → _ => intros ?
  | H : ?x ≠ ?x |- _ => destruct (H eq_refl)
  | H : _ = -1 |- _ => exfalso; unfold wf, wf_fds in *; simpl in *; lia
  | H : true = false |- _ => discriminate H
  | H : false = true |- _ => discriminate H
  | H : ?a ≠ ?b |- _ => first [is_var a | is_var b]; fail
  | |- ∃ so, <[_ := _]> _ = <[_ := so]> _ ∧ _ => eexists; split; [reflexivity|]; simpl
  | |- ∃ c e, head _ = Some (c, Some e) ∧ _ => eexists _, _; split; [reflexivity|]; simpl
  | |- ∃ c, head _ = Some (c, None) => eexists; reflexivity
  | |- _ = _ ∨ _ =>
      first [ left; reflexivity
            | right; split; [simpl; lia|]; eexists; reflexivity ]
  | |- _ ∈ _ => in_list
  | |- <[_ := _]> _ !! _ = _ => rewrite lookup_insert_ne by (simpl in *; lia)
  | |- _ = _ => first [assumption | reflexivity | lia | solve [errno_cases]]
  | |- _ ≤ _ => simpl; lia
  end.

Section udp_facts.
Variable os : nat → oscall → option errno.
Variable plat : platform.

Lemma create_udp_sock_spec family socktype addr v6only w :
  wf w →
  wp (create_udp_sock os plat family socktype addr v6only)
    (λ '(s, inuse, noproto) w',
      wf w' ∧ grew w w' ∧
      (s ≠ -1 →
         s = next_fd w ∧ next_fd w' = s + 1 ∧ logs w' = logs w ∧
         ∃ so, fds w' = <[s := so]> (fds w) ∧
               so_family so = family ∧ so_type so = socktype ∧
               so_bound so = Some addr ∧ so_nonblock so = true ∧
               so_backlog so = None ∧
               (family = AF_INET6 → have_IPV6_V6ONLY plat = true →
                v6only ≠ 0 →
                (IPV6_V6ONLY, if v6only =? 2 then 0 else 1) ∈ so_opts so) ∧
               (family = AF_INET6 → have_IPV6_USE_MIN_MTU plat = true →
                (IPV6_USE_MIN_MTU, 1) ∈ so_opts so)) ∧
      (s = -1 →
         fds w' = fds w ∧
         ∃ c e, head (trace w') = Some (c, Some e) ∧
                os (length (tail (trace w'))) c = Some e ∧
                inuse = udp_inuse c e ∧ noproto = udp_noproto family c e ∧
                (inuse = true ∨ noproto = true → logs w' = logs w))) w.
Proof.
  intros Hwf. destruct w as [m n t l]. pose proof (wf_fresh _ _ Hwf) as Hfresh.
  unfold create_udp_sock. destruct family.
  all: repeat wp_prim.
  all: leaf2.
  all: try discriminate.
  all: try (match goal with H : _ ≠ 0 |- _ =>
              apply Z.eqb_neq in H; rewrite H in * end;
            match goal with H : have_IPV6_V6ONLY _ = true |- _ =>
              rewrite H in * end; simpl in *; discriminate).
  all: try (match goal with H : have_IPV6_USE_MIN_MTU _ = true |- _ =>
              rewrite H in * end; simpl in *; discriminate).
Qed.


Lemma make_sock_socket stype ifname port hints v6only w :
  wf w →
  wp (make_sock os plat stype ifname port hints v6only) (λ '(s, noip6, h') w',
      h' = set_ai_socktype stype hints ∧
      wf w' ∧ next_fd w ≤ next_fd w' ∧
      (noip6 = true →
         s = -1 ∧ ai_family hints = AF_INET6 ∧ logs w' = logs w) ∧
      (s ≠ -1 →
         s = next_fd w ∧ next_fd w' = s + 1 ∧ logs w' = logs w ∧
         (∃ c, head (trace w') = Some (c, None)) ∧
         ∃ so, fds w' = <[s := so]> (fds w) ∧
               (v6only = 1 →
                socket_ok plat stype (ai_family hints) ifname port so)) ∧
      (s = -1 →
         (∃ c e, head (trace w') = Some (c, Some e) ∧
                 os (length (tail (trace w'))) c = Some e) ∧
         (fds w' = fds w ∨
          (next_fd w' = next_fd w + 1 ∧
           ∃ so, fds w' = <[next_fd w := so]> (fds w))))) w.
Proof.
  intros Hwf. destruct w as [m n t l]. pose proof (wf_fresh _ _ Hwf) as Hfresh.
  unfold make_sock, getaddrinfo, create_udp_sock, create_tcp_accept_sock,
    socket_ok.
  destruct hints as [pa nh fam ty0 ad]; simpl.
  destruct fam, stype.
  all: repeat wp_prim.
  all: leaf2.
  all: try discriminate.
  all: try congruence.
  all: subst; simpl in *.
  all: try in_list.
  all: try (match goal with H : have_IPV6_V6ONLY _ = true |- _ =>
              rewrite H in * end; simpl in *; discriminate).
Qed.

End udp_facts.

Ltac not_in_list :=
  simpl; rewrite ?not_elem_of_cons; repeat split; try discriminate;
  apply not_elem_of_nil.

Ltac solve_nodup :=
  simpl;
  repeat (apply NoDup_cons_2;
          [rewrite ?not_elem_of_cons; repeat split;
           first [lia | apply not_elem_of_nil]|]);
  apply NoDup_nil_2.

Ltac port_entry :=
  split; [simpl; lia|];
  eexists; split;
  [ simpl; repeat first [rewrite lookup_insert_eq
                        | rewrite lookup_insert_ne by lia]; reflexivity
  | intros Hfam; unfold port_socket_ok, has_pktinfo in *; simpl in *;
    repeat split;
    try first
      [ assumption
      | reflexivity
      | congruence
      | eexists; split; [eassumption|split; [simpl; congruence|reflexivity]]
      | intros; first [ by auto | apply list_elem_of_further; by auto
                      | congruence ] ] ].

Ltac after_make_sock2 :=
  let s := fresh "s" in let noip6 := fresh "noip6" in
  let Hwf1 := fresh "Hwf" in let Hn := fresh "Hn" in let Hno := fresh "Hno" in
  let Hsucc := fresh "Hsucc" in let Hfail := fresh "Hfail" in
  let E := fresh "E" in
  apply wp_bind; eapply wp_mono; [apply make_sock_socket; solve_wf|];
  intros [[s noip6] ?] [? ? ? ?] (-> & Hwf1 & Hn & Hno & Hsucc & Hfail);
  wp_simpl;
  destruct (s =? -1) eqn:E;
  [ apply Z.eqb_eq in E; clear Hsucc;
    destruct (Hfail E) as [(? & ? & ? & ?) [?|(? & ? & ?)]];
    clear Hfail; simpl in *; subst
  | apply Z.eqb_neq in E;
    destruct (Hsucc E) as (? & ? & ? & [? ?] & ? & ? & Hsock);
    specialize (Hsock eq_refl);
    destruct Hsock as (? & ? & ? & ? & ? & ? & ? & ?);
    clear Hfail Hsucc; simpl in *; subst ].

Ltac wp_pci2 :=
  lazymatch goal with
  | |- wp (bind (make_sock _ _ _ _ _ _ _) _) _ _ => after_make_sock2
  | |- _ => wp_prim
  end.

Section ports_facts.
Variable os : nat → oscall → option errno.
Variable plat : platform.

Lemma ports_create_if_ports ifname do_auto do_udp do_tcp hints port lst w :
  wf w →
  wp (ports_create_if os plat ifname do_auto do_udp do_tcp hints port lst)
    (λ '(ok, lst', h') w',
      wf w' ∧ next_fd w ≤ next_fd w' ∧
      (∀ fd, fd < next_fd w → fds w' !! fd = fds w !! fd) ∧
      ∃ added, lst' = added ++ lst ∧
        map lp_ftype added `sublist_of` [listen_type_tcp; udp_tag do_auto] ∧
        (do_tcp = false → listen_type_tcp ∉ map lp_ftype added) ∧
        (do_auto || do_udp = false → udp_tag do_auto ∉ map lp_ftype added) ∧
        NoDup (map lp_fd added) ∧
        Forall (λ p, next_fd w ≤ lp_fd p < next_fd w' ∧
                     ∃ so, fds w' !! lp_fd p = Some so ∧
                           (ai_family hints ≠ AF_UNSPEC →
                            port_socket_ok plat port p so)) added ∧
        (∀ fd so, fds w' !! fd = Some so → next_fd w ≤ fd →
           fd ∈ map lp_fd added ∨ stray os plat do_auto)) w.
Proof.
  intros Hwf. destruct w as [m n t l].
  unfold ports_create_if, set_recvpktinfo, port_insert.
  destruct hints as [pa nh fam ty0 ad]; simpl.
  destruct fam, do_auto, do_udp, do_tcp; simpl.
  all: repeat wp_pci2.
  all: (split; [solve_wf|]).
  all: (split; [simpl; lia|]).
  all: (split; [intros fd Hfd; simpl in *;
                     repeat (rewrite lookup_insert_ne by lia); reflexivity|]).
  all: try (match goal with
                 | H : true = true → _ ∧ AF_UNSPEC = AF_INET6 ∧ _ |- _ =>
                     destruct (H eq_refl) as (_ & ? & _); discriminate
                 | H : true = true → _ ∧ AF_INET = AF_INET6 ∧ _ |- _ =>
                     destruct (H eq_refl) as (_ & ? & _); discriminate
                 end).
  all: pick_added.
  all: (split; [simpl; solve [repeat first [apply sublist_nil
                                          | apply sublist_skip
                                          | apply sublist_cons]]|]).
  all: (split; [intros Hx; first [discriminate Hx | not_in_list]|]).
  all: (split; [intros Hx; first [discriminate Hx | not_in_list]|]).
  all: (split; [solve_nodup|]).
  all: (split; [repeat (apply Forall_cons; split; [port_entry|]);
                     apply Forall_nil; exact I|]).
  all: (intros fd so Hlk Hge; simpl in Hlk; lookup_cases Hlk).
  all: try (left; in_list).
  all: try (right; left; eexists _, _, _; eassumption).
  all: try (exfalso; destruct Hwf as [_ Hw];
                 specialize (Hw fd (mk_is_Some _ _ Hlk)); simpl in *; lia).
  all: try (right; right; split; [reflexivity|]; unfold pktinfo_ok;
                 repeat match goal with
                        | E : _ plat = false |- _ => rewrite E; clear E
                        end; simpl; rewrite ?andb_false_r; reflexivity).
Qed.
End ports_facts.

(** ** The descriptors and the ports of a run *)

Lemma listening_ports_free_cons p nx w :
  listening_ports_free (p :: nx) w =
  listening_ports_free nx
    (if lp_fd p =? -1 then w else set_fds (delete (lp_fd p)) w).
Proof. simpl. unfold bind. by destruct (lp_fd p =? -1). Qed.

Lemma listening_ports_free_lookup lst w :
  next_fd (listening_ports_free lst w).2 = next_fd w ∧
  trace (listening_ports_free lst w).2 = trace w ∧
  logs (listening_ports_free lst w).2 = logs w ∧
  ∀ fd, fds (listening_ports_free lst w).2 !! fd =
        if bool_decide (fd ≠ -1 ∧ fd ∈ map lp_fd lst) then None
        else fds w !! fd.
Proof.
  revert w. induction lst as [|p nx IH]; intros w.
  { split; [done|]. split; [done|]. split; [done|]. intros fd. simpl.
    rewrite bool_decide_eq_false_2; [done|]. intros [_ H].
    by apply elem_of_nil in H. }
  rewrite listening_ports_free_cons.
  destruct (lp_fd p =? -1) eqn:E; simpl.
  - apply Z.eqb_eq in E. destruct (IH w) as (-> & -> & -> & Hl).
    split; [done|]. split; [done|]. split; [done|]. intros fd. rewrite Hl.
    rewrite (bool_decide_ext (fd ≠ -1 ∧ fd ∈ map lp_fd (p :: nx))
               (fd ≠ -1 ∧ fd ∈ map lp_fd nx)); [done|].
    simpl. rewrite elem_of_cons. split; [|by intros [? ?]; auto].
    intros [? [?|?]]; [lia|done].
  - apply Z.eqb_neq in E.
    destruct (IH (set_fds (delete (lp_fd p)) w)) as (-> & -> & -> & Hl).
    split; [done|]. split; [done|]. split; [done|]. intros fd. rewrite Hl.
    simpl. destruct (decide (fd = lp_fd p)) as [->|Hne].
    + rewrite lookup_delete_eq.
      rewrite (bool_decide_eq_true_2
                 (lp_fd p ≠ -1 ∧ lp_fd p ∈ lp_fd p :: map lp_fd nx)).
      * by destruct (bool_decide _).
      * split; [done|apply list_elem_of_here].
    + rewrite lookup_delete_ne by done.
      rewrite (bool_decide_ext (fd ≠ -1 ∧ fd ∈ lp_fd p :: map lp_fd nx)
                 (fd ≠ -1 ∧ fd ∈ map lp_fd nx)); [done|].
      rewrite elem_of_cons. split; [|by intros [? ?]; auto].
      intros [? [?|?]]; done.
Qed.

Section inv3_facts.
Variable os : nat → oscall → option errno.
Variable plat : platform.
Variable str_is_ip6 : string → bool.

Lemma inv3_init portnum auto w w1 :
  wf w → fds w1 = fds w → next_fd w1 = next_fd w →
  inv3 os plat portnum auto w [] w1.
Proof.
  intros Hwf Hf Hn. split.
  { unfold wf. by rewrite Hf, Hn. }
  split; [lia|]. split; [intros fd _; by rewrite Hf|].
  split; [split; [apply NoDup_nil_2|by apply Forall_nil]|].
  intros fd so Hso Hge. exfalso. rewrite Hf in Hso. destruct Hwf as [_ Hw].
  specialize (Hw fd (mk_is_Some _ _ Hso)). lia.
Qed.

Lemma inv3_step portnum auto w0 lst w ifname do_udp do_tcp hints :
  ai_family hints ≠ AF_UNSPEC →
  inv3 os plat portnum auto w0 lst w →
  wp (ports_create_if os plat ifname auto do_udp do_tcp hints portnum lst)
    (λ '(ok, lst', h') w', inv3 os plat portnum auto w0 lst' w') w.
Proof.
  intros Hfam (Hwf & Hn & Hfr & [Hnd Hp] & Hs).
  eapply wp_mono; [by apply ports_create_if_ports|].
  intros [[ok lst'] h'] w'
    (Hwf' & Hn' & Hfr' & added & -> & _ & _ & _ & Hnd' & Hadd & Hs').
  split; [done|]. split; [lia|]. split.
  { intros fd Hfd. rewrite Hfr' by lia. by apply Hfr. }
  split; [split|].
  - rewrite map_app. apply NoDup_app. split; [done|]. split; [|done].
    intros fd [p [-> Hp1]]%list_elem_of_fmap [q [E Hq]]%list_elem_of_fmap.
    eapply Forall_forall in Hadd; [|exact Hp1].
    eapply Forall_forall in Hp; [|exact Hq]. lia.
  - apply Forall_app. split.
    + eapply Forall_impl; [exact Hadd|]. intros p [? (so & ? & Hok)].
      split; [lia|]. exists so. auto.
    + eapply Forall_impl; [exact Hp|]. intros p [? (so & Hso & Hok)].
      split; [lia|]. exists so. split; [|done]. rewrite Hfr' by lia. done.
  - intros fd so Hso Hge. rewrite map_app, elem_of_app.
    destruct (decide (fd < next_fd w)) as [Hlt|Hlt].
    + rewrite Hfr' in Hso by done. destruct (Hs fd so Hso Hge); auto.
    + destruct (Hs' fd so Hso); [lia|auto..].
Qed.

Lemma inv3_fail portnum auto w0 lst w :
  0 ≤ next_fd w0 →
  inv3 os plat portnum auto w0 lst w →
  wp (listening_ports_free lst ;; ret [])
     (inv3 os plat portnum auto w0) w.
Proof.
  intros H0 (Hwf & Hn & Hfr & [Hnd Hp] & Hs).
  apply wp_bind. unfold wp at 1.
  destruct (listening_ports_free_lookup lst w) as (En & _ & _ & Hl).
  apply wp_ret. split.
  { destruct Hwf as [? Hw]. split; [lia|]. rewrite En. intros fd [so Hso].
    rewrite Hl in Hso. destruct (bool_decide _); [done|].
    apply Hw. by exists so. }
  split; [lia|]. split.
  { intros fd Hfd. rewrite Hl, bool_decide_eq_false_2; [by apply Hfr|].
    intros [_ [p [-> Hp1]]%list_elem_of_fmap].
    eapply Forall_forall in Hp; [|exact Hp1]. lia. }
  split; [split; [apply NoDup_nil_2|by apply Forall_nil]|].
  intros fd so Hso Hge. right. rewrite Hl in Hso.
  case_bool_decide as Hd; [done|].
  destruct (Hs fd so Hso Hge) as [Hin|?]; [|done].
  exfalso. apply Hd. split; [lia|done].
Qed.

Lemma ports_open_ifs_inv3 w0 ifs i4 i6 udp tcp hints portnum lst w :
  0 ≤ next_fd w0 →
  inv3 os plat portnum false w0 lst w →
  wp (ports_open_ifs os plat str_is_ip6 ifs i4 i6 udp tcp hints portnum lst)
     (inv3 os plat portnum false w0) w.
Proof.
  intros H0. revert hints lst w.
  induction ifs as [|ifname rest IH]; intros hints lst w Hinv; simpl.
  { by apply wp_ret. }
  destruct (str_is_ip6 ifname).
  - destruct i6; simpl; [|by apply IH].
    apply wp_bind. eapply wp_mono; [by apply inv3_step|].
    intros [[[] lst'] h'] w' H; simpl; [by apply IH|by apply inv3_fail].
  - destruct i4; simpl; [|by apply IH].
    apply wp_bind. eapply wp_mono; [by apply inv3_step|].
    intros [[[] lst'] h'] w' H; simpl; [by apply IH|by apply inv3_fail].
Qed.

Lemma listening_ports_open_inv3 cfg w :
  wf w →
  wp (listening_ports_open os plat str_is_ip6 cfg)
     (inv3 os plat (port cfg) (do_auto_of plat cfg) w) w.
Proof.
  intros Hwf. assert (0 ≤ next_fd w) as H0 by (by destruct Hwf).
  unfold listening_ports_open, do_auto_of, do_ip6_of, num_ifs.
  destruct cfg as [p i4 i6 u t a n l]; simpl.
  destruct i4, i6, (have_INET6 plat), a, u; simpl;
    try (apply wp_ret; by apply inv3_init).
  all: try (apply wp_bind; eapply wp_eq; [reflexivity|]).
  all: destruct (Z.of_nat (length l) =? 0) eqn:El; simpl.
  all: try (apply ports_open_ifs_inv3; [exact H0|by apply inv3_init]).
  all: repeat first
    [ apply wp_ret; assumption
    | apply inv3_fail; [exact H0|assumption]
    | lazymatch goal with
      | |- wp (bind _ _) (inv3 _ _ ?p ?a ?w0) _ =>
          apply wp_bind; eapply wp_mono;
          [ apply (inv3_step p a w0);
            [ simpl; discriminate
            | first [by apply inv3_init|assumption] ]
          | intros [[[] ?] ?] ? ?; simpl ]
      end ].
Qed.

End inv3_facts.

Section socket_theorems.
Variable os : nat → oscall → option errno.
Variable plat : platform.
Variable str_is_ip6 : string → bool.

(** X1: when [create_udp_sock] fails, the descriptor table is as it was
    before the call: the socket, if one was opened, has been closed. *)
Theorem create_udp_sock_closes_on_failure family socktype addr v6only w :
  wf w →
  (create_udp_sock os plat family socktype addr v6only w).1.1.1 = -1 →
  fds (create_udp_sock os plat family socktype addr v6only w).2 = fds w.
Proof.
  intros Hwf Hs.
  pose proof (create_udp_sock_spec os plat family socktype addr v6only w Hwf) as H.
  unfold wp in H.
  destruct (create_udp_sock _ _ _ _ _ _ _) as [[[s inuse] noproto] w'].
  simpl in *. destruct H as (_ & _ & _ & Hf). by destruct (Hf Hs).
Qed.

(** X2: when [create_udp_sock] succeeds it returns the next free
    descriptor and writes no log line; the socket is of the family and
    type asked for, bound to [addr] and non-blocking; an IPv6 socket has
    [IPV6_V6ONLY] set (to 0 if [v6only] is 2, else to 1) when [v6only]
    is not 0, and [IPV6_USE_MIN_MTU] set, where the options exist; no
    other descriptor changes. *)
Theorem create_udp_sock_success family socktype addr v6only w :
  wf w →
  let r := create_udp_sock os plat family socktype addr v6only w in
  r.1.1.1 ≠ -1 →
  r.1.1.1 = next_fd w ∧ next_fd r.2 = next_fd w + 1 ∧ logs r.2 = logs w ∧
  (∀ fd, fd ≠ next_fd w → fds r.2 !! fd = fds w !! fd) ∧
  ∃ so, fds r.2 !! next_fd w = Some so ∧
        so_family so = family ∧ so_type so = socktype ∧
        so_bound so = Some addr ∧ so_nonblock so = true ∧
        so_backlog so = None ∧
        (family = AF_INET6 → have_IPV6_V6ONLY plat = true → v6only ≠ 0 →
         (IPV6_V6ONLY, if v6only =? 2 then 0 else 1) ∈ so_opts so) ∧
        (family = AF_INET6 → have_IPV6_USE_MIN_MTU plat = true →
         (IPV6_USE_MIN_MTU, 1) ∈ so_opts so).
Proof.
  intros Hwf r Hs.
  pose proof (create_udp_sock_spec os plat family socktype addr v6only w Hwf) as H.
  unfold wp in H. fold r in H.
  destruct r as [[[s inuse] noproto] w'].
  simpl in *. destruct H as (_ & _ & Hok & _).
  destruct (Hok Hs) as (-> & ? & ? & so & Hfds & ?).
  split; [done|]. split; [done|]. split; [done|]. rewrite Hfds. split.
  - intros fd Hfd. by rewrite lookup_insert_ne.
  - exists so. by rewrite lookup_insert_eq.
Qed.

(** X3: when [create_udp_sock] fails, the last operating-system call
    has failed; [*inuse] is set exactly when that call is a [bind] that
    failed with [EADDRINUSE], [*noproto] exactly when it is a [socket]
    refused for the family or the protocol or a [bind] of an IPv6 socket
    that failed with [EINVAL]; and when either is set the function has
    written no log line. *)
Theorem create_udp_sock_failure_flags family socktype addr v6only w :
  wf w →
  let r := create_udp_sock os plat family socktype addr v6only w in
  r.1.1.1 = -1 →
  ∃ c e, head (trace r.2) = Some (c, Some e) ∧
         os (length (tail (trace r.2))) c = Some e ∧
         r.1.1.2 = udp_inuse c e ∧
         r.1.2 = udp_noproto family c e ∧
         (r.1.1.2 = true ∨ r.1.2 = true → logs r.2 = logs w).
Proof.
  intros Hwf r Hs.
  pose proof (create_udp_sock_spec os plat family socktype addr v6only w Hwf) as H.
  unfold wp in H. fold r in H.
  destruct r as [[[s inuse] noproto] w'].
  simpl in *. destruct H as (_ & _ & _ & Hf). by destruct (Hf Hs).
Qed.




(** X7: [ports_create_if] only adds ports in front of the list: at most
    a datagram port, of type [udpancil] with [do_auto] and [udp]
    without, and in front of it a stream port; no stream port without
    [do_tcp] and no datagram port without [do_auto] or [do_udp]; the
    added ports are distinct descriptors opened by the call. *)
Theorem ports_create_if_adds_in_front ifname do_auto do_udp do_tcp hints
    port lst w :
  wf w →
  let r := ports_create_if os plat ifname do_auto do_udp do_tcp hints port
             lst w in
  ∃ added,
    r.1.1.2 = added ++ lst ∧
    map lp_ftype added `sublist_of` [listen_type_tcp; udp_tag do_auto] ∧
    (do_tcp = false → listen_type_tcp ∉ map lp_ftype added) ∧
    (do_auto || do_udp = false → udp_tag do_auto ∉ map lp_ftype added) ∧
    NoDup (map lp_fd added) ∧
    Forall (λ p, next_fd w ≤ lp_fd p < next_fd r.2 ∧
                 is_Some (fds r.2 !! lp_fd p)) added.
Proof.
  intros Hwf r.
  pose proof (ports_create_if_ports os plat ifname do_auto do_udp do_tcp hints
                port lst w Hwf) as H.
  unfold wp in H. fold r in H. destruct r as [[[ok lst'] h'] w'].
  simpl in *.
  destruct H as (_ & _ & _ & added & -> & ? & ? & ? & ? & Hadd & _).
  exists added. split; [done|]. split; [done|]. split; [done|].
  split; [done|]. split; [done|].
  eapply Forall_impl; [exact Hadd|]. intros p [? (so & -> & _)]. by eauto.
Qed.

Lemma ports_open_ifs_no_transport ifs i4 i6 hints port w :
  ports_open_ifs os plat str_is_ip6 ifs i4 i6 false false hints port [] w
  = ([], w).
Proof.
  revert hints. induction ifs as [|ifname rest IH]; intros hints; simpl; [done|].
  destruct (str_is_ip6 ifname).
  - destruct i6; simpl; [done|apply IH].
  - destruct i4; simpl; [done|apply IH].
Qed.

(** X10: with no transport to listen on (UDP off, and TCP off or no TCP
    connection allowed) or no address family enabled,
    [listening_ports_open] returns the empty list and does nothing: no
    operating-system call, no log line. *)
Theorem listening_ports_open_nothing_to_listen cfg w :
  (do_udp cfg = false ∧ tcp_of cfg = false) ∨
  (do_ip4 cfg = false ∧ do_ip6_of plat cfg = false) →
  listening_ports_open os plat str_is_ip6 cfg w = ([], w).
Proof.
  unfold listening_ports_open, tcp_of, do_ip6_of, num_ifs.
  destruct cfg as [p i4 i6 u t a n l]; simpl.
  intros [[-> Ht]|[-> H6]].
  - rewrite Ht, andb_false_r. simpl.
    destruct i4, i6, (have_INET6 plat); simpl; try done.
    all: destruct (Z.of_nat (length l) =? 0); simpl; try done.
    all: apply ports_open_ifs_no_transport.
  - destruct i6, (have_INET6 plat); simpl in *; done.
Qed.

(** X11: [listening_ports_free] closes the descriptors of the list that
    are not -1, leaves every other descriptor as it was, and writes no
    log line. *)
Theorem listening_ports_free_closes lst w :
  logs (listening_ports_free lst w).2 = logs w ∧
  ∀ fd, fds (listening_ports_free lst w).2 !! fd =
        if bool_decide (fd ≠ -1 ∧ fd ∈ map lp_fd lst) then None
        else fds w !! fd.
Proof.
  destruct (listening_ports_free_lookup lst w) as (_ & _ & ? & ?). done.
Qed.

(** X8: [listening_ports_open] leaves every descriptor that was open
    before the call open and as it was, whether it succeeds or fails. *)
Theorem listening_ports_open_keeps_descriptors cfg w fd so :
  wf w → fds w !! fd = Some so →
  fds (listening_ports_open os plat str_is_ip6 cfg w).2 !! fd = Some so.
Proof.
  intros Hwf Hso.
  pose proof (listening_ports_open_inv3 os plat str_is_ip6 cfg w Hwf) as H.
  unfold wp in H. destruct H as (_ & _ & Hfr & _). rewrite Hfr; [done|].
  destruct Hwf as [_ Hw]. apply Hw. by exists so.
Qed.

(** X9: the ports that [listening_ports_open] returns are distinct
    descriptors that were not open before; each is an open socket that
    is non-blocking, bound to an IPv4 or IPv6 address with the
    configured port number, a datagram socket for a port of type [udp]
    or [udpancil] and a stream socket listening with backlog
    [TCP_BACKLOG] for a port of type [tcp]; it reports destination
    addresses exactly if the port is [udpancil]; and an IPv6 socket has
    [IPV6_V6ONLY] set to 1 where the option exists. *)
Theorem listening_ports_open_ports_ok cfg w :
  wf w →
  let r := listening_ports_open os plat str_is_ip6 cfg w in
  NoDup (map lp_fd r.1) ∧
  Forall (λ p, fds w !! lp_fd p = None ∧
               ∃ so, fds r.2 !! lp_fd p = Some so ∧
                     port_socket_ok plat (port cfg) p so) r.1.
Proof.
  intros Hwf r.
  pose proof (listening_ports_open_inv3 os plat str_is_ip6 cfg w Hwf) as H.
  unfold wp in H. fold r in H. destruct H as (_ & _ & _ & [Hnd Hp] & _).
  split; [done|]. eapply Forall_impl; [exact Hp|]. intros p [? ?].
  split; [|done]. destruct (fds w !! lp_fd p) as [so|] eqn:E; [|done].
  exfalso. destruct Hwf as [_ Hw]. specialize (Hw _ (mk_is_Some _ _ E)). lia.
Qed.

(** X12: when no operating-system call fails (and, where
    [interface-automatic] applies, destination addresses can be asked
    for), freeing the ports that [listening_ports_open] has returned
    leaves the descriptor table exactly as it was before the ports were
    opened. *)
Theorem open_then_free_restores_descriptors cfg w :
  (∀ n c, os n c = None) →
  (do_auto_of plat cfg = true → pktinfo_ok plat = true) →
  wf w →
  let r := listening_ports_open os plat str_is_ip6 cfg w in
  fds (listening_ports_free r.1 r.2).2 = fds w.
Proof.
  intros Hok Hpk Hwf r.
  pose proof (listening_ports_open_inv3 os plat str_is_ip6 cfg w Hwf) as H.
  unfold wp in H. fold r in H. destruct H as (Hwf' & Hn & Hfr & [Hnd Hp] & Hs).
  destruct (listening_ports_free_lookup r.1 r.2) as (_ & _ & _ & Hl).
  apply map_eq. intros fd. rewrite Hl.
  destruct (decide (fd < next_fd w)) as [Hlt|Hge].
  - rewrite bool_decide_eq_false_2; [by apply Hfr|].
    intros [_ [p [-> Hp1]]%list_elem_of_fmap].
    eapply Forall_forall in Hp; [|exact Hp1]. lia.
  - assert (fds w !! fd = None) as ->.
    { destruct (fds w !! fd) as [so|] eqn:E; [|done]. exfalso.
      destruct Hwf as [_ Hw]. specialize (Hw _ (mk_is_Some _ _ E)). lia. }
    case_bool_decide as Hd; [done|].
    destruct (fds r.2 !! fd) as [so|] eqn:E; [|done]. exfalso.
    destruct (Hs fd so E) as [Hin|[(n & c & e & Hf)|[Ha Hp']]]; [lia|..].
    + apply Hd. split; [|done]. destruct Hwf as [? _]. lia.
    + by rewrite Hok in Hf.
    + rewrite Hpk in Hp'; done.
Qed.

End socket_theorems.

Lemma wf_world1 : wf world1.
Proof.
  split; [simpl; lia|]. intros fd [so H]. simpl in *.
  apply lookup_singleton_Some in H as [<- _]. lia.
Qed.

Lemma create_udp_sock_closes_on_failure_witness :
  fds (create_udp_sock os_no_ip6 linux AF_INET6 SOCK_DGRAM loopback6 1
         world0).2 = fds world0.
Proof.
  apply create_udp_sock_closes_on_failure; [exact wf_world0|].
  vm_compute; reflexivity.
Defined.

Lemma create_udp_sock_success_witness :
  let r := create_udp_sock os_ok linux AF_INET6 SOCK_DGRAM loopback6 1 world0 in
  r.1.1.1 = next_fd world0 ∧ next_fd r.2 = next_fd world0 + 1 ∧
  logs r.2 = logs world0 ∧
  (∀ fd, fd ≠ next_fd world0 → fds r.2 !! fd = fds world0 !! fd) ∧
  ∃ so, fds r.2 !! next_fd world0 = Some so ∧
        so_family so = AF_INET6 ∧ so_type so = SOCK_DGRAM ∧
        so_bound so = Some loopback6 ∧ so_nonblock so = true ∧
        so_backlog so = None ∧
        (AF_INET6 = AF_INET6 → have_IPV6_V6ONLY linux = true → 1 ≠ 0 →
         (IPV6_V6ONLY, if 1 =? 2 then 0 else 1) ∈ so_opts so) ∧
        (AF_INET6 = AF_INET6 → have_IPV6_USE_MIN_MTU linux = true →
         (IPV6_USE_MIN_MTU, 1) ∈ so_opts so).
Proof.
  apply (create_udp_sock_success os_ok linux AF_INET6 SOCK_DGRAM loopback6 1
           world0 wf_world0).
  vm_compute. intros H. discriminate H.
Defined.

Lemma create_udp_sock_failure_flags_witness :
  let r := create_udp_sock os_tcp_in_use linux AF_INET SOCK_DGRAM loopback4 1
             world1 in
  ∃ c e, head (trace r.2) = Some (c, Some e) ∧
         os_tcp_in_use (length (tail (trace r.2))) c = Some e ∧
         r.1.1.2 = udp_inuse c e ∧
         r.1.2 = udp_noproto AF_INET c e ∧
         (r.1.1.2 = true ∨ r.1.2 = true → logs r.2 = logs world1).
Proof.
  apply (create_udp_sock_failure_flags os_tcp_in_use linux AF_INET SOCK_DGRAM
           loopback4 1 world1 wf_world1).
  vm_compute; reflexivity.
Defined.




Lemma ports_create_if_adds_in_front_witness :
  let r := ports_create_if os_ok linux "127.0.0.1" false true true
             (set_ai_family AF_INET hints0) 53 [] world0 in
  ∃ added,
    r.1.1.2 = added ++ [] ∧
    map lp_ftype added `sublist_of` [listen_type_tcp; udp_tag false] ∧
    (true = false → listen_type_tcp ∉ map lp_ftype added) ∧
    (false || true = false → udp_tag false ∉ map lp_ftype added) ∧
    NoDup (map lp_fd added) ∧
    Forall (λ p, next_fd world0 ≤ lp_fd p < next_fd r.2 ∧
                 is_Some (fds r.2 !! lp_fd p)) added.
Proof.
  apply (ports_create_if_adds_in_front os_ok linux "127.0.0.1" false true true
           (set_ai_family AF_INET hints0) 53 [] world0 wf_world0).
Defined.

Lemma listening_ports_open_nothing_to_listen_witness :
  listening_ports_open os_ok linux has_colon cfg_no_transport world0
  = ([], world0).
Proof.
  apply listening_ports_open_nothing_to_listen. left. split; reflexivity.
Defined.

Lemma listening_ports_open_keeps_descriptors_witness :
  fds (listening_ports_open os_ok linux has_colon cfg_default world1).2 !! 3
  = Some (new_socket AF_INET SOCK_DGRAM).
Proof.
  apply (listening_ports_open_keeps_descriptors os_ok linux has_colon
           cfg_default world1 3 _ wf_world1).
  vm_compute; reflexivity.
Defined.

Lemma listening_ports_open_ports_ok_witness :
  let r := listening_ports_open os_ok linux has_colon cfg_default world0 in
  NoDup (map lp_fd r.1) ∧
  Forall (λ p, fds world0 !! lp_fd p = None ∧
               ∃ so, fds r.2 !! lp_fd p = Some so ∧
                     port_socket_ok linux (port cfg_default) p so) r.1.
Proof.
  apply (listening_ports_open_ports_ok os_ok linux has_colon cfg_default
           world0 wf_world0).
Defined.

Lemma open_then_free_restores_descriptors_witness :
  let r := listening_ports_open os_ok linux has_colon cfg_automatic world1 in
  fds (listening_ports_free r.1 r.2).2 = fds world1.
Proof.
  apply (open_then_free_restores_descriptors os_ok linux has_colon
           cfg_automatic world1 (λ _ _, eq_refl) (λ _, eq_refl) wf_world1).
Defined.


(** * Properties of the listener front *)

(** The allocations of the loop are those of its first round and those
    of the rest. *)
Ltac alloc_down H :=
  lazymatch goal with
  | |- ?f (?a + ?k)%nat = true =>
      let k' := fresh "k" in
      destruct k as [|[|k']];
      [ replace (a + 0)%nat with a by lia; assumption
      | replace (a + 1)%nat with (S a) by lia; assumption
      | specialize (H k');
        lazymatch type of H with
        | _ → f ?n = true =>
            replace n with (a + S (S k'))%nat in H by lia
        end;
        apply H; simpl in *; lia ]
  end.

Ltac alloc_up H k :=
  lazymatch goal with
  | |- ?f ?n = true =>
      lazymatch type of H with
      | ∀ j, _ → f (?a + j)%nat = true =>
          replace n with (a + (k + 2))%nat by lia; apply H; simpl in *; lia
      end
  end.

Section front_facts.
Import ListenCreate.
Local Open Scope nat_scope.

Variable alloc_ok : nat → bool.
Variable comm_point_create_udp : Z → Commpoint.comm_point.
Variable comm_point_create_tcp : Z → Z → Z → Commpoint.comm_point.
Variable comm_point_create_udp_ancil : Z → Commpoint.comm_point.

Abbreviation listen_create_ports :=
  (listen_create_ports alloc_ok comm_point_create_udp comm_point_create_tcp
     comm_point_create_udp_ancil).
Abbreviation listen_create :=
  (listen_create alloc_ok comm_point_create_udp comm_point_create_tcp
     comm_point_create_udp_ancil).
Abbreviation create_for :=
  (create_for comm_point_create_udp comm_point_create_tcp
     comm_point_create_udp_ancil).

Lemma listen_list_delete_heap l w :
  heap (listen_list_delete l w) =
    foldl (λ h p, delete (item p) (delete (com p) h)) (heap w) l ∧
  hlogs (listen_list_delete l w) = hlogs w.
Proof.
  revert w. induction l as [|p l IH]; intros w; simpl; [done|].
  by destruct (IH (free (item p) (free (com p) w))) as [-> ->].
Qed.

Lemma listen_delete_heap front w :
  delete (front_addr front)
    (delete (udp_buff front) (heap (listen_list_delete (cps front) w))) =
  delete_front front (heap w).
Proof.
  unfold delete_front.
  by destruct (listen_list_delete_heap (cps front) w) as [-> _].
Qed.

Lemma heap_fresh w a : heap_wf w → next_addr w ≤ a → heap w !! a = None.
Proof.
  intros Hwf Ha. destruct (heap w !! a) eqn:E; [|done].
  specialize (Hwf a (mk_is_Some _ _ E)). lia.
Qed.

Lemma alloc_spec o w :
  (alloc alloc_ok o w).1 = (if alloc_ok (allocs w) then Some (next_addr w)
                            else None) ∧
  allocs (alloc alloc_ok o w).2 = S (allocs w) ∧
  hlogs (alloc alloc_ok o w).2 = hlogs w ∧
  heap (alloc alloc_ok o w).2 =
    (if alloc_ok (allocs w) then <[next_addr w := o]> (heap w) else heap w) ∧
  next_addr (alloc alloc_ok o w).2 =
    (if alloc_ok (allocs w) then S (next_addr w) else next_addr w).
Proof. unfold alloc. by destruct (alloc_ok (allocs w)). Qed.

Lemma alloc_wf o w : heap_wf w → heap_wf (alloc alloc_ok o w).2.
Proof.
  intros Hwf a. destruct (alloc_spec o w) as (_ & _ & _ & -> & ->).
  destruct (alloc_ok (allocs w)); [|apply Hwf].
  rewrite lookup_insert_is_Some'. intros [<-|?%Hwf]; lia.
Qed.

Lemma delete_two_fresh (h : gmap nat obj) a b oa ob :
  h !! a = None → h !! b = None → a ≠ b →
  delete b (delete a (<[b := ob]> (<[a := oa]> h))) = h.
Proof.
  intros Ha Hb Hab. rewrite delete_insert_ne by done.
  rewrite delete_insert_eq, delete_insert_eq.
  rewrite delete_id by (by rewrite lookup_delete_ne). by apply delete_id.
Qed.

Lemma delete_two_fresh_rev (h : gmap nat obj) a b oa ob :
  h !! a = None → h !! b = None → a ≠ b →
  delete a (delete b (<[b := ob]> (<[a := oa]> h))) = h.
Proof.
  intros Ha Hb Hab. rewrite delete_insert_eq.
  rewrite (delete_id _ b) by (by rewrite lookup_insert_ne).
  rewrite delete_insert_eq. by apply delete_id.
Qed.

(** The loop keeps what [listen_delete] gives back. *)
Lemma listen_create_ports_restores ports bufsize count front w h0 :
  heap_wf w → delete_front front (heap w) = h0 →
  heap (listen_delete (listen_create_ports ports bufsize count front w).1
          (listen_create_ports ports bufsize count front w).2) = h0.
Proof.
  revert front w. induction ports as [|p next IH]; intros front w Hwf H0; simpl.
  { subst h0. unfold delete_front.
    destruct (listen_list_delete_heap (cps front) w) as [Hd _].
    destruct (cps front) eqn:E; simpl; [done|].
    rewrite E. simpl in *. by rewrite Hd. }
  unfold alloc at 1 2. destruct (alloc_ok (allocs w)) eqn:E1; simpl.
  2:{ by rewrite listen_delete_heap. }
  unfold listen_cp_insert, alloc. simpl.
  destruct (alloc_ok (S (allocs w))) eqn:E2; simpl.
  2:{ rewrite listen_delete_heap. simpl. rewrite alter_insert_eq.
      rewrite delete_insert_eq, delete_id by (by apply heap_fresh). done. }
  apply IH.
  - intros a. simpl. rewrite alter_insert_eq.
    rewrite !lookup_insert_is_Some'. intros [<-|[<-|?%Hwf]]; lia.
  - simpl. rewrite alter_insert_eq. unfold delete_front in *. simpl.
    rewrite delete_two_fresh;
      [done|apply heap_fresh; [done|lia]..|lia].
Qed.

(** X13: [listen_create] followed by [listen_delete] of its result
    leaves the heap as it was; in particular a [listen_create] that
    returns [NULL] has released everything it had allocated. *)
Theorem listen_create_then_delete_restores_heap ports bufsize count w :
  heap_wf w →
  heap (listen_delete (listen_create ports bufsize count w).1
          (listen_create ports bufsize count w).2) = heap w.
Proof.
  intros Hwf. unfold ListenCreate.listen_create, alloc. simpl.
  destruct (alloc_ok (allocs w)) eqn:E1; simpl; [|done].
  destruct (alloc_ok (S (allocs w))) eqn:E2; simpl.
  2:{ by rewrite delete_insert_eq, delete_id by (by apply heap_fresh). }
  apply listen_create_ports_restores.
  - intros a. simpl. rewrite !lookup_insert_is_Some'.
    intros [<-|[<-|?%Hwf]]; lia.
  - unfold delete_front. simpl.
    rewrite delete_two_fresh_rev;
      [done|apply heap_fresh; [done|lia]..|lia].
Qed.

Lemma listen_create_ports_succeeds ports bufsize count front w :
  is_Some (listen_create_ports ports bufsize count front w).1 ↔
  (ports ≠ [] ∨ cps front ≠ []) ∧
  ∀ i, i < 2 * length ports → alloc_ok (allocs w + i) = true.
Proof.
  revert front w. induction ports as [|p next IH]; intros front w; simpl.
  { destruct (cps front) eqn:E; simpl.
    - split; [by intros [? ?]|]. by intros [[?|?] _].
    - split; [|done]. intros _. split; [by right|]. intros i Hi. lia. }
  unfold alloc at 1. destruct (alloc_ok (allocs w)) eqn:E1; simpl.
  2:{ split; [by intros [? ?]|]. intros [_ H]. exfalso.
      assert (alloc_ok (allocs w + 0) = true) as H'
        by (apply H; simpl; lia).
      rewrite Nat.add_0_r in H'. congruence. }
  unfold listen_cp_insert, alloc. simpl.
  destruct (alloc_ok (S (allocs w))) eqn:E2; simpl.
  2:{ split; [by intros [? ?]|]. intros [_ H]. exfalso.
      assert (alloc_ok (allocs w + 1) = true) as H'
        by (apply H; simpl; lia).
      replace (allocs w + 1) with (S (allocs w)) in H' by lia. congruence. }
  rewrite IH. simpl. split.
  - intros [_ H]. split; [by left|]. intros i Hi. by alloc_down H.
  - intros [_ H]. split; [by right|]. intros i Hi. by alloc_up H i.
Qed.

(** X15: [listen_create] returns a listener exactly when there is at
    least one port and none of its allocations fails: those of the
    structure and of the buffer, and of a comm point and a list item for
    each port. *)
Theorem listen_create_succeeds_iff ports bufsize count w :
  is_Some (listen_create ports bufsize count w).1 ↔
  ports ≠ [] ∧
  ∀ i, i < 2 + 2 * length ports → alloc_ok (allocs w + i) = true.
Proof.
  unfold ListenCreate.listen_create, alloc. simpl.
  destruct (alloc_ok (allocs w)) eqn:E1; simpl.
  2:{ split; [by intros [? ?]|]. intros [_ H]. exfalso.
      assert (alloc_ok (allocs w + 0) = true) as H'
        by (apply H; simpl; lia).
      rewrite Nat.add_0_r in H'. congruence. }
  destruct (alloc_ok (S (allocs w))) eqn:E2; simpl.
  2:{ split; [by intros [? ?]|]. intros [_ H]. exfalso.
      assert (alloc_ok (allocs w + 1) = true) as H'
        by (apply H; simpl; lia).
      replace (allocs w + 1) with (S (allocs w)) in H' by lia. congruence. }
  rewrite listen_create_ports_succeeds. simpl. split.
  - intros [[?|?] Hall]; [|done]. split; [done|]. intros i Hi.
    by alloc_down Hall.
  - intros [? Hall]. split; [by left|]. intros i Hi. by alloc_up Hall i.
Qed.

Abbreviation holds :=
  (holds comm_point_create_udp comm_point_create_tcp
     comm_point_create_udp_ancil).

Lemma listen_create_ports_shape ports bufsize count front w front' :
  (listen_create_ports ports bufsize count front w).1 = Some front' →
  let w' := (listen_create_ports ports bufsize count front w).2 in
  front_addr front' = front_addr front ∧ udp_buff front' = udp_buff front ∧
  hlogs w' = hlogs w ∧
  (∀ a, a < next_addr w → heap w' !! a = heap w !! a) ∧
  ∃ new, cps front' = new ++ cps front ∧
         Forall2 (holds bufsize count (heap w')) new (rev ports).
Proof.
  revert front w. induction ports as [|p next IH]; intros front w; simpl.
  { destruct (cps front) eqn:E; simpl; [done|]. intros [= <-].
    repeat split; try done. exists []. split; [done|constructor]. }
  unfold listen_cp_insert, alloc. simpl.
  destruct (alloc_ok (allocs w)) eqn:E1; simpl; [|done].
  destruct (alloc_ok (S (allocs w))) eqn:E2; simpl; [|done].
  intros H. pose proof (IH _ _ H) as IHH. cbv zeta in IHH. cbv zeta.
  cbn [front_addr udp_buff cps hlogs next_addr heap] in IHH.
  destruct IHH as (Ha & Hb & Hl & Hfr & new & Hc & Hnew).
  split; [done|]. split; [done|]. split; [done|]. split.
  { intros a Hlt. rewrite Hfr by lia. rewrite alter_insert_eq.
    by rewrite !lookup_insert_ne by lia. }
  exists (new ++ [{| item := S (next_addr w); com := next_addr w |}]).
  split; [by rewrite Hc, <-app_assoc|]. apply Forall2_app; [done|].
  constructor; [|constructor]. split; simpl.
  - rewrite Hfr by lia. rewrite alter_insert_eq.
    rewrite lookup_insert_ne by lia. by rewrite lookup_insert_eq.
  - rewrite Hfr by lia. by rewrite lookup_insert_eq.
Qed.

(** X14: when [listen_create] returns a listener, there was at least
    one port and no log line is written; the structure and the buffer,
    of the size asked for, are allocated; the list holds one comm point
    for each port, in the reverse order of the ports, each the comm
    point made for the type and descriptor of its port with
    [do_not_close] set; and every object allocated before is as it
    was. *)
Theorem listen_create_makes_a_comm_point_per_port ports bufsize count w front :
  (listen_create ports bufsize count w).1 = Some front →
  let w' := (listen_create ports bufsize count w).2 in
  ports ≠ [] ∧ hlogs w' = hlogs w ∧
  heap w' !! front_addr front = Some Obj_listen_dnsport ∧
  heap w' !! udp_buff front = Some (Obj_buffer bufsize) ∧
  Forall2 (holds bufsize count (heap w')) (cps front) (rev ports) ∧
  (∀ a, a < next_addr w → heap w' !! a = heap w !! a).
Proof.
  intros H.
  assert (ports ≠ []) as Hne.
  { apply (listen_create_succeeds_iff ports bufsize count w). by rewrite H. }
  revert H. unfold ListenCreate.listen_create, alloc. simpl.
  destruct (alloc_ok (allocs w)) eqn:E1; simpl; [|done].
  destruct (alloc_ok (S (allocs w))) eqn:E2; simpl; [|done].
  intros H. pose proof (listen_create_ports_shape _ _ _ _ _ _ H) as Hs.
  cbv zeta in Hs. cbv zeta.
  cbn [front_addr udp_buff cps hlogs next_addr heap] in Hs.
  destruct Hs as (Ha & Hb & Hl & Hfr & new & Hc & Hnew).
  rewrite app_nil_r in Hc. subst new. rewrite Ha, Hb.
  split; [done|]. split; [done|]. rewrite !Hfr by lia.
  split; [rewrite lookup_insert_ne by lia; by rewrite lookup_insert_eq|].
  split; [by rewrite lookup_insert_eq|].
  split; [done|]. intros a Hlt. rewrite Hfr by lia.
  by rewrite !lookup_insert_ne by lia.
Qed.

End front_facts.

Section front_witnesses.
Import ListenCreate.

Lemma heap_wf_memory0 : heap_wf memory0.
Proof. intros a [o H]. simpl in H. by rewrite lookup_empty in H. Qed.

Lemma listen_create_then_delete_restores_heap_witness :
  heap (listen_delete
          (listen_create third_fails new_udp new_tcp new_udp two_ports
             65552 10 memory0).1
          (listen_create third_fails new_udp new_tcp new_udp two_ports
             65552 10 memory0).2) = heap memory0.
Proof.
  apply listen_create_then_delete_restores_heap. exact heap_wf_memory0.
Defined.

Lemma listen_create_makes_a_comm_point_per_port_witness :
  let front := {| front_addr := 1;
                  cps := [{| item := 6; com := 5 |};
                          {| item := 4; com := 3 |}];
                  udp_buff := 2 |} in
  let w' := (listen_create always new_udp new_tcp new_udp two_ports 65552 10
               memory0).2 in
  two_ports ≠ [] ∧ hlogs w' = hlogs memory0 ∧
  heap w' !! front_addr front = Some Obj_listen_dnsport ∧
  heap w' !! udp_buff front = Some (Obj_buffer 65552) ∧
  Forall2 (holds new_udp new_tcp new_udp 65552 10 (heap w')) (cps front)
    (rev two_ports) ∧
  (∀ a, (a < next_addr memory0)%nat → heap w' !! a = heap memory0 !! a).
Proof.
  intros front.
  apply (listen_create_makes_a_comm_point_per_port always new_udp new_tcp
           new_udp two_ports 65552 10 memory0 front).
  vm_compute; reflexivity.
Defined.

End front_witnesses.
